(** * Line diff of the JSON comparison view

    A shallow embedding of [computeLineDiff] from
    [src/features/json/JsonDiff.tsx], stage by stage: line splitting and
    trailing-whitespace stripping, the LCS table, the backward walk that
    emits edit operations, and the projection of the operations onto the
    two status arrays.

    Conventions of the embedding.
    - A JavaScript string is the list of its UTF-16 code units.
    - Array indices and table cells are natural numbers (the cells are
      bounded by the line counts, far below 2^53, so the double
      arithmetic of the source is exact on them).
    - Every array access is checked: [None] flags an index outside the
      array, below 0 included. JavaScript would read [undefined] there,
      throw on [undefined[j]], or grow the array on a write; the theorems
      below show that the code never gets there. *)

From Stdlib Require Import String Ascii.
From stdpp Require Import base numbers option list.

Local Open Scope nat_scope.

(** ** Strings *)

Module JsString.

(** A string is a sequence of 16-bit code units. *)
Abbreviation jsstring := (list N).

Definition LF : N := 10%N.
Definition CR : N := 13%N.

(** An ASCII literal as code units. *)
Definition js (s : string) : jsstring :=
  map N_of_ascii (list_ascii_of_string s).

(** The one-character string "\n". *)
Definition nl : jsstring := [LF].

(** The class [\s] of an ECMAScript regular expression (without the
    unicode flag it is tested code unit by code unit): WhiteSpace and
    LineTerminator. *)
Definition is_ws (c : N) : bool :=
  ((9 <=? c) && (c <=? 13) ||
   (c =? 32) || (c =? 160) || (c =? 5760) ||
   (8192 <=? c) && (c <=? 8202) ||
   (c =? 8232) || (c =? 8233) || (c =? 8239) || (c =? 8287) ||
   (c =? 12288) || (c =? 65279))%N.

(** [s.split('\n')]: the pieces between the line feeds, empty pieces
    kept; a string without a line feed is one piece. *)
Fixpoint split (s : jsstring) : list jsstring :=
  match s with
  | [] => [[]]
  | c :: s' =>
      if decide (c = LF) then [] :: split s'
      else match split s' with
           | [] => [[c]]
           | l :: ls => (c :: l) :: ls
           end
  end.

(** [line.replace(/\s+$/g, '')]: the only match of [\s+$] is the longest
    run of white space that ends the string, and it is deleted. Going
    from the right, a white-space unit is dropped while nothing has
    been kept after it. *)
Definition rstrip (s : jsstring) : jsstring :=
  foldr (fun c r => if is_ws c && bool_decide (r = []) then [] else c :: r) [] s.

End JsString.

Import JsString.

(** ** Data model *)

(** [type LineStatus = 'unchanged' | 'added' | 'removed' | 'modified'] *)
Inductive LineStatus : Type :=
| unchanged
| added
| removed
| modified.

#[global] Instance LineStatus_eq_dec : EqDecision LineStatus.
Proof. solve_decision. Defined.

(** [interface LineDiffResult] *)
Record LineDiffResult : Type := mkResult {
  oldStatuses : list LineStatus;
  newStatuses : list LineStatus
}.

(** The local type [Op] of [computeLineDiff]. *)
Inductive Op : Type :=
| OpEqual (oldIndex newIndex : nat)
| OpRemove (oldIndex : nat)
| OpAdd (newIndex : nat)
| OpModify (oldIndex newIndex : nat).

(** The table [dp: number[][]]. *)
Abbreviation matrix := (list (list nat)).

(** ** Checked array accesses *)

(** [dp[i][j]] as a read. *)
Definition get2 (dp : matrix) (i j : nat) : option nat :=
  row ← dp !! i; row !! j.

(** [arr[k] = v] inside the array. *)
Definition set1 {A} (arr : list A) (k : nat) (v : A) : option (list A) :=
  if decide (k < length arr) then Some (<[k := v]> arr) else None.

(** [dp[i][j] = v] inside the table. *)
Definition set2 (dp : matrix) (i j v : nat) : option matrix :=
  row ← dp !! i; row' ← set1 row j v; set1 dp i row'.

(** [k - 1] used as an array index: there is no index below 0. *)
Definition pred_index (k : nat) : option nat :=
  match k with
  | 0 => None
  | S k' => Some k'
  end.

(** [for (let k = lo; k < lo + count; k++) body], the state threaded
    through the passes. *)
Fixpoint for_loop {St : Type} (body : nat -> St -> option St)
    (lo count : nat) (s : St) : option St :=
  match count with
  | 0 => Some s
  | S c => s' ← body lo s; for_loop body (S lo) c s'
  end.

(** ** Stage 2: the LCS table *)

(** [Array.from({ length: n + 1 }, () => new Array(m + 1).fill(0))] *)
Definition new_matrix (n m : nat) : matrix :=
  replicate (n + 1) (replicate (m + 1) 0).

(** The body of the inner loop at [(i, j)]; [i1] and [j1] stand for
    [i - 1] and [j - 1]. *)
Definition fill_cell (oldTrimmed newTrimmed : list jsstring)
    (i j : nat) (dp : matrix) : option matrix :=
  i1 ← pred_index i;
  j1 ← pred_index j;
  a ← oldTrimmed !! i1;
  b ← newTrimmed !! j1;
  if decide (a = b) then
    d ← get2 dp i1 j1;
    set2 dp i j (d + 1)
  else
    u ← get2 dp i1 j;
    l ← get2 dp i j1;
    set2 dp i j (Nat.max u l).

(** The two nested loops over [1 <= i <= n], [1 <= j <= m]. *)
Definition build_dp (oldTrimmed newTrimmed : list jsstring) : option matrix :=
  let n := length oldTrimmed in
  let m := length newTrimmed in
  for_loop (fun i => for_loop (fill_cell oldTrimmed newTrimmed i) 1 m)
    1 n (new_matrix n m).

(** ** Stage 3: the backward walk *)

(** The mutable locals [i], [j] and [ops] of the walk. *)
Record walk_state : Type := mkWalk {
  w_i : nat;
  w_j : nat;
  w_ops : list Op
}.

(** [ops.push(op)] *)
Definition push (ops : list Op) (op : Op) : list Op := ops ++ [op].

(** One pass through the body of [while (i > 0 && j > 0)]; [i1] and [j1]
    stand for [i - 1] and [j - 1]. The second conjunct of the tie-break
    test is only evaluated when the first one holds, and the third test
    reads its two cells again. *)
Definition walk_body (dp : matrix) (oldTrimmed newTrimmed : list jsstring)
    (s : walk_state) : option walk_state :=
  let i := w_i s in
  let j := w_j s in
  let ops := w_ops s in
  i1 ← pred_index i;
  j1 ← pred_index j;
  a ← oldTrimmed !! i1;
  b ← newTrimmed !! j1;
  if decide (a = b) then
    Some (mkWalk i1 j1 (push ops (OpEqual i1 j1)))
  else
    d ← get2 dp i1 j1;
    u ← get2 dp i1 j;
    diagonal ← (if u <=? d then
                  d' ← get2 dp i1 j1;
                  l ← get2 dp i j1;
                  Some (l <=? d')
                else Some false);
    if diagonal : bool then
      Some (mkWalk i1 j1 (push ops (OpModify i1 j1)))
    else
      u' ← get2 dp i1 j;
      l' ← get2 dp i j1;
      if l' <=? u' then
        Some (mkWalk i1 j (push ops (OpRemove i1)))
      else
        Some (mkWalk i j1 (push ops (OpAdd j1))).

(** [while (i > 0 && j > 0) { ... }]. The loop is not structural, so it
    runs on fuel; [None] also stands for fuel that ran out, and
    [walk_loop_total] shows that [i + j] passes are always enough. *)
Fixpoint walk_loop (fuel : nat) (dp : matrix)
    (oldTrimmed newTrimmed : list jsstring) (s : walk_state)
    : option walk_state :=
  if (0 <? w_i s) && (0 <? w_j s) then
    match fuel with
    | 0 => None
    | S fuel' =>
        s' ← walk_body dp oldTrimmed newTrimmed s;
        walk_loop fuel' dp oldTrimmed newTrimmed s'
    end
  else Some s.

(** [while (i > 0) { ops.push({ type: 'remove', oldIndex: i - 1 }); i--; }] *)
Fixpoint drain_old (i : nat) (ops : list Op) : nat * list Op :=
  match i with
  | 0 => (i, ops)
  | S i' => drain_old i' (push ops (OpRemove (i - 1)))
  end.

(** [while (j > 0) { ops.push({ type: 'add', newIndex: j - 1 }); j--; }] *)
Fixpoint drain_new (j : nat) (ops : list Op) : nat * list Op :=
  match j with
  | 0 => (j, ops)
  | S j' => drain_new j' (push ops (OpAdd (j - 1)))
  end.

(** The three loops and [ops.reverse()]; the result carries the final
    values of [i] and [j] next to the operations. *)
Definition reconstruct (dp : matrix) (oldTrimmed newTrimmed : list jsstring)
    : option walk_state :=
  let n := length oldTrimmed in
  let m := length newTrimmed in
  s ← walk_loop (n + m) dp oldTrimmed newTrimmed (mkWalk n m []);
  let '(i, ops1) := drain_old (w_i s) (w_ops s) in
  let '(j, ops2) := drain_new (w_j s) ops1 in
  Some (mkWalk i j (rev ops2)).

(** ** Stage 4: the status arrays *)

(** One pass of [for (const op of ops)]. *)
Definition project_op (st : list LineStatus * list LineStatus) (op : Op)
    : option (list LineStatus * list LineStatus) :=
  let '(olds, news) := st in
  match op with
  | OpEqual oi ni =>
      olds' ← set1 olds oi unchanged;
      news' ← set1 news ni unchanged;
      Some (olds', news')
  | OpRemove oi =>
      olds' ← set1 olds oi removed;
      Some (olds', news)
  | OpAdd ni =>
      news' ← set1 news ni added;
      Some (olds, news')
  | OpModify oi ni =>
      olds' ← set1 olds oi modified;
      news' ← set1 news ni modified;
      Some (olds', news')
  end.

Fixpoint project_ops (ops : list Op) (st : list LineStatus * list LineStatus)
    : option (list LineStatus * list LineStatus) :=
  match ops with
  | [] => Some st
  | op :: ops' => st' ← project_op st op; project_ops ops' st'
  end.

(** [new Array(n).fill('unchanged')], [new Array(m).fill('unchanged')] and
    the loop over the operations. *)
Definition project (n m : nat) (ops : list Op) : option LineDiffResult :=
  st ← project_ops ops (replicate n unchanged, replicate m unchanged);
  Some (mkResult st.1 st.2).

(** ** The whole function *)

(** The edit operations [computeLineDiff] has built when it reaches the
    projection, with the final values of [i] and [j]. *)
Definition computeOps (oldText newText : jsstring) : option walk_state :=
  let oldLines := split oldText in
  let newLines := split newText in
  let oldTrimmed := map rstrip oldLines in
  let newTrimmed := map rstrip newLines in
  dp ← build_dp oldTrimmed newTrimmed;
  reconstruct dp oldTrimmed newTrimmed.

Definition computeLineDiff (oldText newText : jsstring) : option LineDiffResult :=
  let oldLines := split oldText in
  let newLines := split newText in
  let oldTrimmed := map rstrip oldLines in
  let newTrimmed := map rstrip newLines in
  let n := length oldTrimmed in
  let m := length newTrimmed in
  dp ← build_dp oldTrimmed newTrimmed;
  s ← reconstruct dp oldTrimmed newTrimmed;
  project n m (w_ops s).

(** Counting statuses in an array. *)
Definition count_status (v : LineStatus) (arr : list LineStatus) : nat :=
  length (filter (fun x => x = v) arr).


(** ** The table of LCS lengths, as a function

    [lcs_len o nw i j] follows the recurrence of the LCS length of the
    first [i] keys of [o] and the first [j] keys of [nw]. It is the
    reference of the loop invariant of [build_dp]; the code is the loop. *)
Fixpoint lcs_len (o nw : list jsstring) (i : nat) {struct i} : nat -> nat :=
  match i with
  | 0 => fun _ => 0
  | S i' =>
      fix row (j : nat) : nat :=
        match j with
        | 0 => 0
        | S j' =>
            if decide (o !! i' = nw !! j') then S (lcs_len o nw i' j')
            else Nat.max (lcs_len o nw i' (S j')) (row j')
        end
  end.

(** The table has [n + 1] rows of [m + 1] cells. *)
Definition dims (n m : nat) (dp : matrix) : Prop :=
  length dp = n + 1 /\ Forall (fun row => length row = m + 1) dp.

(** The cells written before the pass at [(i, j)], and the borders, hold
    their final values. *)
Definition filled (o nw : list jsstring) (i j : nat) (dp : matrix) : Prop :=
  dims (length o) (length nw) dp /\
  forall i' j', i' <= length o -> j' <= length nw ->
    i' = 0 \/ j' = 0 \/ i' < i \/ (i' = i /\ j' < j) ->
    get2 dp i' j' = Some (lcs_len o nw i' j').

(** ** Reading an edit script *)

(** The old line an operation mentions. *)
Definition old_index (op : Op) : option nat :=
  match op with
  | OpEqual oi _ | OpRemove oi | OpModify oi _ => Some oi
  | OpAdd _ => None
  end.

(** The new line an operation mentions. *)
Definition new_index (op : Op) : option nat :=
  match op with
  | OpEqual _ ni | OpAdd ni | OpModify _ ni => Some ni
  | OpRemove _ => None
  end.

(** The old lines a script mentions, in the order of the script. *)
Definition old_indices (ops : list Op) : list nat := omap old_index ops.

(** The new lines a script mentions, in the order of the script. *)
Definition new_indices (ops : list Op) : list nat := omap new_index ops.

(** The status the projection writes on the old side for an operation. *)
Definition old_status (op : Op) : option LineStatus :=
  match op with
  | OpEqual _ _ => Some unchanged
  | OpRemove _ => Some removed
  | OpModify _ _ => Some modified
  | OpAdd _ => None
  end.

(** The status the projection writes on the new side for an operation. *)
Definition new_status (op : Op) : option LineStatus :=
  match op with
  | OpEqual _ _ => Some unchanged
  | OpAdd _ => Some added
  | OpModify _ _ => Some modified
  | OpRemove _ => None
  end.

Definition is_equal (op : Op) : bool :=
  match op with OpEqual _ _ => true | _ => false end.

(** The number of [equal] operations of a script. *)
Definition count_equal (ops : list Op) : nat :=
  length (filter (fun op => is_equal op = true) ops).

(** The table handed to the walk is the one [build_dp] makes. *)
Definition lcs_table (o nw : list jsstring) (dp : matrix) : Prop :=
  dims (length o) (length nw) dp /\
  forall i j, i <= length o -> j <= length nw ->
    get2 dp i j = Some (lcs_len o nw i j).

(** What a stretch of the walk from [(i, j)] to [(i', j')] has pushed:
    the old lines [i - 1] down to [i'], the new lines [j - 1] down to
    [j'], and as many [equal] operations as the table loses. *)
Definition stretch (o nw : list jsstring) (i j i' j' : nat) (em : list Op) : Prop :=
  i' <= i /\ j' <= j /\
  old_indices em = rev (seq i' (i - i')) /\
  new_indices em = rev (seq j' (j - j')) /\
  count_equal em + lcs_len o nw i' j' = lcs_len o nw i j.

(** The comparison keys of a text: [oldTrimmed] and [newTrimmed]. *)
Definition keys (text : jsstring) : list jsstring := map rstrip (split text).

(** Two texts that differ only in the style of their line ends: a line
    end is "\n" in one text where it is "\r\n" in the other, and every
    other code unit is the same. *)
Inductive eol_equiv : jsstring -> jsstring -> Prop :=
| eol_nil : eol_equiv [] []
| eol_same c a b : eol_equiv a b -> eol_equiv (c :: a) (c :: b)
| eol_crlf_lf a b : eol_equiv a b -> eol_equiv (CR :: LF :: a) (LF :: b)
| eol_lf_crlf a b : eol_equiv a b -> eol_equiv (LF :: a) (CR :: LF :: b).

(** The result that marks [n] old lines and [m] new lines unchanged. *)
Definition all_unchanged (n m : nat) : LineDiffResult :=
  mkResult (replicate n unchanged) (replicate m unchanged).

(** ** What the script says about the keys *)

(** An operation agrees with the keys: [equal] joins two lines with the
    same key, [modify] two lines with different keys. *)
Definition op_sound (o nw : list jsstring) (op : Op) : Prop :=
  match op with
  | OpEqual oi ni => exists k, o !! oi = Some k /\ nw !! ni = Some k
  | OpModify oi ni => exists a b, o !! oi = Some a /\ nw !! ni = Some b /\ a <> b
  | OpRemove _ | OpAdd _ => True
  end.

(** The keys of the lines of one side whose status is [v], in order. *)
Definition select (v : LineStatus) (ks : list jsstring) (sts : list LineStatus)
    : list jsstring :=
  omap (fun p => if decide (p.2 = v) then Some p.1 else None) (zip ks sts).

(** The key an operation gives to [select v] on the old side. *)
Definition old_pick (v : LineStatus) (o : list jsstring) (op : Op) : option jsstring :=
  match old_status op, old_index op with
  | Some s, Some oi => if decide (s = v) then o !! oi else None
  | _, _ => None
  end.

(** The key an operation gives to [select v] on the new side. *)
Definition new_pick (v : LineStatus) (nw : list jsstring) (op : Op) : option jsstring :=
  match new_status op, new_index op with
  | Some s, Some ni => if decide (s = v) then nw !! ni else None
  | _, _ => None
  end.

(** The number of operations of a script that satisfy [f]. *)
Definition count_ops (f : Op -> bool) (ops : list Op) : nat :=
  length (filter (fun op => f op = true) ops).

Definition is_remove (op : Op) : bool :=
  match op with OpRemove _ => true | _ => false end.

Definition is_add (op : Op) : bool :=
  match op with OpAdd _ => true | _ => false end.

Definition is_modify (op : Op) : bool :=
  match op with OpModify _ _ => true | _ => false end.

(** ** The summary line of the comparison view *)

(** The three numbers [JsonDiff] shows above the editors. *)
Record DiffSummary : Type := mkSummary {
  sum_added : nat;
  sum_removed : nat;
  sum_modified : nat
}.

(** [newStatuses.filter(status => status === 'added').length],
    [oldStatuses.filter(status => status === 'removed').length] and the
    [Math.max] of the two counts of ['modified']. *)
Definition diffSummary (r : LineDiffResult) : DiffSummary :=
  mkSummary
    (length (filter (fun status => status = added) (newStatuses r)))
    (length (filter (fun status => status = removed) (oldStatuses r)))
    (Nat.max
       (length (filter (fun status => status = modified) (oldStatuses r)))
       (length (filter (fun status => status = modified) (newStatuses r)))).

(** [computeLineDiff] from the keys on: all that follows the two [map]s. *)
Definition diff_keys (o nw : list jsstring) : option LineDiffResult :=
  dp ← build_dp o nw;
  s ← reconstruct dp o nw;
  project (length o) (length nw) (w_ops s).

(** What [reconstruct] has pushed before [ops.reverse()], from the three
    loops in turn. *)
Definition pushed (dp : matrix) (o nw : list jsstring) : option (list Op) :=
  s ← walk_loop (length o + length nw) dp o nw (mkWalk (length o) (length nw) []);
  Some (w_ops s ++ map OpRemove (rev (seq 0 (w_i s)))
                ++ map OpAdd (rev (seq 0 (w_j s)))).

(** ** The highlighted lines of the comparison view *)

(** ['old' | 'new'] *)
Inductive Side : Type :=
| SideOld
| SideNew.

(** The status as it is spelled in the class name. *)
Definition status_name (status : LineStatus) : jsstring :=
  match status with
  | unchanged => js "unchanged"
  | added => js "added"
  | removed => js "removed"
  | modified => js "modified"
  end.

(** The double quote, code unit 34. *)
Definition dquote : jsstring := [34%N].

(** The callback of [lines.map] in [highlightWithDiff]; [highlight] stands
    for Prism's [highlight(line, languages.json, 'json')]. *)
Definition highlight_line (highlight : jsstring -> jsstring)
    (statuses : list LineStatus) (index : nat) (line : jsstring) : jsstring :=
  let status := default unchanged (statuses !! index) in
  let lineHtml := highlight line in
  let cls := js "diff-line diff-line-" ++ status_name status in
  let content := if decide (lineHtml = []) then js "&nbsp;" else lineHtml in
  js "<div class=" ++ dquote ++ cls ++ dquote ++ js ">" ++ content ++ js "</div>".

(** [highlightWithDiff(code, side)]; [r] is the result of [computeLineDiff]
    the component holds. *)
Definition highlightWithDiff (highlight : jsstring -> jsstring)
    (r : LineDiffResult) (code : jsstring) (side : Side) : jsstring :=
  let statuses := match side with SideOld => oldStatuses r | SideNew => newStatuses r end in
  let lines := split code in
  concat (imap (highlight_line highlight statuses) lines).

(** ** [jsonUtils.ts] and the history of [JsonTool] *)

(** [s.trim()]: white space and line terminators off both ends. *)
Fixpoint lstrip (s : jsstring) : jsstring :=
  match s with
  | [] => []
  | c :: s' => if is_ws c then lstrip s' else s
  end.

Definition trim (s : jsstring) : jsstring := rstrip (lstrip s).

(** The message ['输入内容为空'], as code units. *)
Definition empty_input_error : jsstring :=
  [36755; 20837; 20869; 23481; 20026; 31354]%N.

(** [{ success: boolean; result: string; error?: string }] *)
Record JsonResult : Type := mkJsonResult {
  success : bool;
  result : jsstring;
  error : option jsstring
}.

(** [{ valid: boolean; error?: string }] *)
Record ValidateResult : Type := mkValidate {
  valid : bool;
  valid_error : option jsstring
}.

(** [interface HistoryItem] *)
Record HistoryItem : Type := mkItem {
  item_id : jsstring;
  item_content : jsstring;
  item_timestamp : Z;
  item_size : N
}.

(** What one call of [addToHistory] reads from its surroundings: the
    string [Date.now().toString(36) + Math.random().toString(36).substring(2)]
    and the later [Date.now()]. *)
Record Clock : Type := mkClock {
  fresh_id : jsstring;
  now : Z
}.

Section Json.

(** The values [JSON.parse] returns. *)
Context {J : Type}.

(** [JSON.parse]: the value, or the message of the [SyntaxError] thrown. *)
Variable parse : jsstring -> J + jsstring.

(** [JSON.stringify(value, null, space)]; [None] when [space] is left out. *)
Variable stringify : J -> option nat -> jsstring.

(** [new Blob([content]).size] *)
Variable blob_size : jsstring -> N.

Definition formatJson (input : jsstring) : JsonResult :=
  if decide (trim input = []) then mkJsonResult false [] (Some empty_input_error)
  else match parse input with
       | inl parsed => mkJsonResult true (stringify parsed (Some 2)) None
       | inr message => mkJsonResult false [] (Some message)
       end.

Definition minifyJson (input : jsstring) : JsonResult :=
  if decide (trim input = []) then mkJsonResult false [] (Some empty_input_error)
  else match parse input with
       | inl parsed => mkJsonResult true (stringify parsed None) None
       | inr message => mkJsonResult false [] (Some message)
       end.

Definition validateJson (input : jsstring) : ValidateResult :=
  if decide (trim input = []) then mkValidate false (Some empty_input_error)
  else match parse input with
       | inl _ => mkValidate true None
       | inr message => mkValidate false (Some message)
       end.

(** The first line of [addToHistory]: content that is not recorded. *)
Definition skipped (content : jsstring) : bool :=
  bool_decide (content = []) || bool_decide (trim content = []) ||
  bool_decide (trim content = js "{}") || bool_decide (trim content = js "[]").

(** [[newItem, ...prev].slice(0, 50)] *)
Definition push_entry (clock : Clock) (content : jsstring)
    (prev : list HistoryItem) : list HistoryItem :=
  take 50 (mkItem (fresh_id clock) content (now clock) (blob_size content) :: prev).

(** The function handed to [setHistory]. *)
Definition history_update (clock : Clock) (content : jsstring)
    (prev : list HistoryItem) : list HistoryItem :=
  match prev with
  | [] => push_entry clock content prev
  | last :: rest =>
      match parse content, parse (item_content last) with
      | inl currentData, inl lastData =>
          if decide (stringify currentData None = stringify lastData None) then
            if decide (item_content last = content) then prev
            else mkItem (item_id last) content (now clock) (blob_size content) :: rest
          else push_entry clock content prev
      | _, _ =>
          if decide (item_content last = content) then prev
          else push_entry clock content prev
      end
  end.

Definition addToHistory (clock : Clock) (content : jsstring)
    (history : list HistoryItem) : list HistoryItem :=
  if skipped content then history else history_update clock content history.

End Json.

(** [prev.filter(item => item.id !== id)] of [deleteHistoryItem]. *)
Definition deleteHistoryItem (id : jsstring) (history : list HistoryItem)
    : list HistoryItem :=
  filter (fun item => item_id item <> id) history.

(** ** [timeUtils.ts] and the unit chosen by [TimestampTool] *)

(** ['seconds' | 'milliseconds' | 'unknown'] *)
Inductive TimestampUnit : Type :=
| seconds
| milliseconds
| unknown.

(** The class [\d]. *)
Definition is_digit (c : N) : bool := ((48 <=? c) && (c <=? 57))%N.

(** [ts.replace(/\D/g, '')] *)
Definition digits_only (ts : jsstring) : jsstring :=
  filter (fun c => is_digit c = true) ts.

Definition detectTimestampUnit (ts : jsstring) : TimestampUnit :=
  let numericTs := digits_only ts in
  if decide (numericTs = []) then unknown
  else if decide (length numericTs = 10) then seconds
  else if decide (length numericTs = 13) then milliseconds
  else unknown.



(** ** [useTheme] *)

(** ['light' | 'dark' | 'system'] *)
Inductive Theme : Type :=
| light
| dark
| system.

(** The function [toggleTheme] hands to [setTheme]. *)
Definition toggleTheme (prev : Theme) : Theme :=
  match prev with
  | system => light
  | light => dark
  | dark => system
  end.

(** * Proofs *)

(** ** Lines and keys *)

Lemma split_cons c s :
  split (c :: s) =
    if decide (c = LF) then [] :: split s
    else (c :: hd [] (split s)) :: tl (split s).
Proof.
  simpl. case_decide; [done |]. destruct (split s) eqn:E; [| done].
  by destruct s; simpl in E; repeat case_decide; try destruct (split s).
Qed.

Lemma split_not_nil s : split s <> [].
Proof. destruct s as [|c s]; [done |]. rewrite split_cons. by case_decide. Qed.

Lemma split_hd_tl s : split s = hd [] (split s) :: tl (split s).
Proof. pose proof (split_not_nil s). by destruct (split s). Qed.

Lemma split_length s : 1 <= length (split s).
Proof. rewrite split_hd_tl. simpl. lia. Qed.

(** The split is on the line feed, and on nothing else. *)
Lemma split_app_LF a b : split (a ++ LF :: b) = split a ++ split b.
Proof.
  induction a as [|c a IH]; [done |].
  simpl app. rewrite !split_cons, IH. case_decide; [done |].
  by rewrite (split_hd_tl a).
Qed.

Lemma keys_length text : length (keys text) = length (split text).
Proof. apply length_map. Qed.

Lemma rstrip_cons c s :
  rstrip (c :: s) =
    if is_ws c && bool_decide (rstrip s = []) then [] else c :: rstrip s.
Proof. reflexivity. Qed.

(** [rstrip] cuts a text before its longest run of final white space. *)
Lemma rstrip_spec s :
  exists w, s = rstrip s ++ w /\ Forall (fun c => is_ws c = true) w /\
    forall c, last (rstrip s) = Some c -> is_ws c = false.
Proof.
  induction s as [|c s (w & Hs & Hw & Hl)].
  - exists []. by repeat split.
  - rewrite rstrip_cons. destruct (is_ws c) eqn:Ec; simpl.
    + case_bool_decide as Hr.
      * exists (c :: w). rewrite Hr in Hs. simpl in Hs. rewrite <- Hs.
        split; [done |]. split; [| done]. constructor; [done |]. by rewrite Hs.
      * exists w. split; [by simpl; f_equal |]. split; [done |].
        intros c'. rewrite last_cons. destruct (last (rstrip s)) eqn:El; [by auto |].
        apply last_None in El. done.
    + exists w. split; [by simpl; f_equal |]. split; [done |].
      intros c'. rewrite last_cons. destruct (last (rstrip s)) eqn:El; [by auto |].
      by intros [= <-].
Qed.

(** A white-space unit at the end of a line does not reach its key. *)
Lemma rstrip_snoc_ws s c : is_ws c = true -> rstrip (s ++ [c]) = rstrip s.
Proof.
  intros Hc. induction s as [|x s IH].
  - simpl. by rewrite Hc.
  - simpl app. by rewrite !rstrip_cons, IH.
Qed.

Lemma eol_equiv_keys a b : eol_equiv a b -> keys a = keys b.
Proof.
  unfold keys. induction 1 as [| c a b H IH | a b H IH | a b H IH].
  - done.
  - rewrite !split_cons. case_decide; cbn [map]; [by rewrite IH |].
    rewrite (split_hd_tl a), (split_hd_tl b) in IH. cbn [map] in IH.
    injection IH as Hh Ht. by rewrite !rstrip_cons, Hh, Ht.
  - rewrite !(split_cons CR), !(split_cons LF). simpl. by rewrite IH.
  - rewrite !(split_cons CR), !(split_cons LF). simpl. by rewrite IH.
Qed.

(** ** Loops *)

Section Loops.
Context {St : Type}.
Variable body : nat -> St -> option St.
Variable P : nat -> St -> Prop.

Lemma for_loop_inv (count lo : nat) (s : St) :
  P lo s ->
  (forall k t, lo <= k < lo + count -> P k t ->
     exists t', body k t = Some t' /\ P (S k) t') ->
  exists s', for_loop body lo count s = Some s' /\ P (lo + count) s'.
Proof.
  revert lo s. induction count as [|c IH]; intros lo s HP Hstep.
  - exists s. rewrite Nat.add_0_r. done.
  - destruct (Hstep lo s) as (t & Ht & HPt); [lia | done |].
    destruct (IH (S lo) t) as (s' & Hs' & HPs'); [done | |].
    + intros k u Hk. apply Hstep. lia.
    + exists s'. simpl. rewrite Ht. simpl.
      replace (lo + S c) with (S lo + c) by lia. done.
Qed.
End Loops.

(** ** Checked accesses inside the table *)

Lemma set1_Some {A} (arr : list A) k v :
  k < length arr -> set1 arr k v = Some (<[k := v]> arr).
Proof. intros H. unfold set1. by rewrite decide_True. Qed.

Lemma dims_lookup n m dp i :
  dims n m dp -> i <= n -> exists row, dp !! i = Some row /\ length row = m + 1.
Proof.
  intros [Hl Hr] Hi.
  destruct (lookup_lt_is_Some_2 dp i) as [row Hrow]; [lia |].
  exists row. split; [done |].
  rewrite Forall_forall in Hr. apply Hr. by eapply list_elem_of_lookup_2.
Qed.

Lemma get2_is_Some n m dp i j :
  dims n m dp -> i <= n -> j <= m -> is_Some (get2 dp i j).
Proof.
  intros Hd Hi Hj. destruct (dims_lookup n m dp i Hd Hi) as (row & Hrow & Hlen).
  unfold get2. rewrite Hrow. simpl. apply lookup_lt_is_Some_2. lia.
Qed.

Lemma set2_spec n m dp i j v :
  dims n m dp -> i <= n -> j <= m ->
  exists dp', set2 dp i j v = Some dp' /\ dims n m dp' /\
    get2 dp' i j = Some v /\
    forall i' j', (i' <> i \/ j' <> j) -> get2 dp' i' j' = get2 dp i' j'.
Proof.
  intros Hd Hi Hj. destruct (dims_lookup n m dp i Hd Hi) as (row & Hrow & Hlen).
  destruct Hd as [Hl Hr].
  exists (<[i := <[j := v]> row]> dp). split_and!.
  - unfold set2. rewrite Hrow. simpl. rewrite set1_Some by lia. simpl.
    apply set1_Some. lia.
  - split; [by rewrite length_insert |].
    apply Forall_insert; [done |]. by rewrite length_insert.
  - unfold get2. rewrite list_lookup_insert_eq by lia. simpl.
    apply list_lookup_insert_eq. lia.
  - intros i' j' Hne. unfold get2.
    destruct (decide (i' = i)) as [-> | Hii].
    + rewrite list_lookup_insert_eq by lia. rewrite Hrow. simpl.
      apply list_lookup_insert_ne. lia.
    + by rewrite list_lookup_insert_ne.
Qed.

Lemma new_matrix_dims n m : dims n m (new_matrix n m).
Proof.
  split.
  - apply length_replicate.
  - apply Forall_replicate. apply length_replicate.
Qed.

Lemma new_matrix_get2 n m i j :
  i <= n -> j <= m -> get2 (new_matrix n m) i j = Some 0.
Proof.
  intros Hi Hj. unfold get2, new_matrix.
  rewrite lookup_replicate_2 by lia. simpl. apply lookup_replicate_2. lia.
Qed.

(** ** The LCS table *)

Lemma lcs_len_0_r o nw i : lcs_len o nw i 0 = 0.
Proof. by destruct i. Qed.

Lemma lcs_len_S o nw i j :
  lcs_len o nw (S i) (S j) =
    if decide (o !! i = nw !! j) then S (lcs_len o nw i j)
    else Nat.max (lcs_len o nw i (S j)) (lcs_len o nw (S i) j).
Proof. reflexivity. Qed.

#[global] Arguments lcs_len : simpl never.

Lemma lcs_len_0_l o nw j : lcs_len o nw 0 j = 0.
Proof. reflexivity. Qed.

Lemma filled_start o nw : filled o nw 1 1 (new_matrix (length o) (length nw)).
Proof.
  split; [apply new_matrix_dims |].
  intros i' j' Hi Hj Hc. rewrite new_matrix_get2 by done.
  f_equal. destruct Hc as [-> | [-> | [? | [-> ?]]]].
  - done.
  - by rewrite lcs_len_0_r.
  - by replace i' with 0 by lia.
  - replace j' with 0 by lia. by rewrite lcs_len_0_r.
Qed.

Lemma fill_cell_filled o nw i j dp :
  1 <= i <= length o -> 1 <= j <= length nw ->
  filled o nw i j dp ->
  exists dp', fill_cell o nw i j dp = Some dp' /\ filled o nw i (S j) dp'.
Proof.
  intros Hi Hj [Hd Hc].
  destruct i as [|i]; [lia |]. destruct j as [|j]; [lia |].
  destruct (lookup_lt_is_Some_2 o i) as [a Ha]; [lia |].
  destruct (lookup_lt_is_Some_2 nw j) as [b Hb]; [lia |].
  assert (Hdiag : get2 dp i j = Some (lcs_len o nw i j)) by (apply Hc; lia).
  assert (Hup : get2 dp i (S j) = Some (lcs_len o nw i (S j))) by (apply Hc; lia).
  assert (Hleft : get2 dp (S i) j = Some (lcs_len o nw (S i) j)) by (apply Hc; lia).
  assert (Hval : forall v,
    v = lcs_len o nw (S i) (S j) ->
    exists dp', set2 dp (S i) (S j) v = Some dp' /\ filled o nw (S i) (S (S j)) dp').
  { intros v ->.
    destruct (set2_spec _ _ dp (S i) (S j) (lcs_len o nw (S i) (S j)) Hd)
      as (dp' & Hs & Hd' & Hg & Ho); [lia | lia |].
    exists dp'. split; [done |]. split; [done |].
    intros i' j' Hi' Hj' Hc'.
    destruct (decide (i' = S i /\ j' = S j)) as [[-> ->] | Hne]; [done |].
    rewrite Ho by lia. apply Hc; lia. }
  unfold fill_cell. simpl. rewrite Ha, Hb. simpl.
  rewrite lcs_len_S in Hval. rewrite Ha, Hb in Hval.
  destruct (decide (a = b)) as [-> | Hab].
  - rewrite Hdiag. simpl. apply Hval. rewrite decide_True by done. lia.
  - rewrite Hup, Hleft. simpl. apply Hval.
    rewrite decide_False by congruence. done.
Qed.

Lemma fill_row_filled o nw i dp :
  1 <= i <= length o ->
  filled o nw i 1 dp ->
  exists dp', for_loop (fill_cell o nw i) 1 (length nw) dp = Some dp' /\
    filled o nw (S i) 1 dp'.
Proof.
  intros Hi Hf.
  destruct (for_loop_inv (fill_cell o nw i) (filled o nw i) (length nw) 1 dp Hf)
    as (dp' & Hrun & [Hd Hc]).
  - intros k t Hk Ht. apply fill_cell_filled; [done | lia | done].
  - exists dp'. split; [done |]. split; [done |].
    intros i' j' Hi' Hj' Hc'. apply Hc; lia.
Qed.

(** [build_dp] returns the table of [lcs_len], cell by cell. *)
Lemma build_dp_lcs o nw :
  exists dp, build_dp o nw = Some dp /\
    dims (length o) (length nw) dp /\
    forall i j, i <= length o -> j <= length nw ->
      get2 dp i j = Some (lcs_len o nw i j).
Proof.
  destruct (for_loop_inv (fun i => for_loop (fill_cell o nw i) 1 (length nw))
              (fun i => filled o nw i 1) (length o) 1
              (new_matrix (length o) (length nw)) (filled_start o nw))
    as (dp & Hrun & [Hd Hc]).
  - intros k t Hk Ht. apply fill_row_filled; [lia | done].
  - exists dp. split; [done |]. split; [done |].
    intros i j Hi Hj. apply Hc; lia.
Qed.

Lemma lcs_len_sym o nw i j : lcs_len o nw i j = lcs_len nw o j i.
Proof.
  revert j. induction i as [|i IHi]; intros j.
  - by rewrite lcs_len_0_l, lcs_len_0_r.
  - induction j as [|j IHj].
    + by rewrite lcs_len_0_l, lcs_len_0_r.
    + rewrite !lcs_len_S, !IHi, IHj.
      destruct (decide (o !! i = nw !! j)) as [Heq | Hne].
      * by rewrite decide_True.
      * rewrite decide_False by congruence. apply Nat.max_comm.
Qed.

(** Along a row the table grows, by at most one from a row to the next. *)
Lemma lcs_len_row o nw i :
  (forall j, lcs_len o nw i j <= lcs_len o nw i (S j)) /\
  (forall j, lcs_len o nw (S i) j <= S (lcs_len o nw i j)).
Proof.
  induction i as [|i [IHa IHd]].
  - split; [intros j; by rewrite !lcs_len_0_l |].
    induction j as [|j IHj]; [by rewrite lcs_len_0_r; lia |].
    rewrite lcs_len_S, !lcs_len_0_l in *. case_decide; lia.
  - assert (Ha : forall j, lcs_len o nw (S i) j <= lcs_len o nw (S i) (S j)).
    { intros j. rewrite (lcs_len_S o nw i j).
      case_decide; [| lia]. specialize (IHd j). lia. }
    split; [done |].
    induction j as [|j IHj]; [by rewrite lcs_len_0_r; lia |].
    rewrite (lcs_len_S o nw (S i) j). specialize (Ha j).
    case_decide; lia.
Qed.

Lemma lcs_len_mono_r o nw i j : lcs_len o nw i j <= lcs_len o nw i (S j).
Proof. apply lcs_len_row. Qed.

Lemma lcs_len_diag o (i : nat) : i <= length o -> lcs_len o o i i = i.
Proof.
  induction i as [|i IH]; intros Hi; [done |].
  rewrite lcs_len_S, decide_True by done. rewrite IH by lia. done.
Qed.

Lemma build_dp_table o nw :
  exists dp, build_dp o nw = Some dp /\ lcs_table o nw dp.
Proof.
  destruct (build_dp_lcs o nw) as (dp & H & Hd & Hc). exists dp.
  split; [done |]. by split.
Qed.

(** ** Edit scripts *)

Lemma old_indices_app a b : old_indices (a ++ b) = old_indices a ++ old_indices b.
Proof. apply omap_app. Qed.

Lemma new_indices_app a b : new_indices (a ++ b) = new_indices a ++ new_indices b.
Proof. apply omap_app. Qed.

Lemma count_equal_app a b : count_equal (a ++ b) = count_equal a + count_equal b.
Proof. unfold count_equal. by rewrite filter_app, length_app. Qed.

Lemma omap_rev {A B} (f : A -> option B) (l : list A) :
  omap f (rev l) = rev (omap f l).
Proof.
  induction l as [|x l IH]; [done |].
  simpl. rewrite omap_app, IH. simpl. destruct (f x); simpl; [done |].
  by rewrite app_nil_r.
Qed.

Lemma count_equal_rev l : count_equal (rev l) = count_equal l.
Proof. unfold count_equal. by rewrite <- (Permutation_rev l). Qed.

(** The numbers below [hi] down to [lo]. *)
Lemma rev_seq_S lo hi :
  lo <= hi -> rev (seq lo (S hi - lo)) = hi :: rev (seq lo (hi - lo)).
Proof.
  intros H. replace (S hi - lo) with (S (hi - lo)) by lia.
  rewrite seq_S, rev_app_distr. simpl. f_equal. lia.
Qed.

Lemma seq_glue lo mid hi :
  lo <= mid <= hi -> seq lo (mid - lo) ++ seq mid (hi - mid) = seq lo (hi - lo).
Proof.
  intros H. replace (hi - lo) with ((mid - lo) + (hi - mid)) by lia.
  rewrite seq_app. do 2 f_equal. lia.
Qed.

(** ** The backward walk *)

(** A stretch of one operation. *)
Ltac stretch_one :=
  unfold stretch, count_equal;
  rewrite ?Nat.sub_diag; rewrite ?Nat.sub_succ_l by lia; rewrite ?Nat.sub_diag;
  rewrite ?lcs_len_0_r, ?lcs_len_0_l; simpl; split_and!; try done; try lia.

Section Walk.
Variables o nw : list jsstring.
Variable dp : matrix.
Hypothesis Hdp : lcs_table o nw dp.

Lemma stretch_refl i j : stretch o nw i j i j [].
Proof.
  unfold stretch. rewrite !Nat.sub_diag. simpl. by repeat split.
Qed.

Lemma stretch_trans i j i1 j1 i2 j2 em1 em2 :
  stretch o nw i j i1 j1 em1 -> stretch o nw i1 j1 i2 j2 em2 ->
  stretch o nw i j i2 j2 (em1 ++ em2).
Proof.
  intros (Hi1 & Hj1 & Ho1 & Hn1 & Hc1) (Hi2 & Hj2 & Ho2 & Hn2 & Hc2).
  unfold stretch. split_and!; [lia | lia | | |].
  - rewrite old_indices_app, Ho1, Ho2, <- rev_app_distr, seq_glue by lia. done.
  - rewrite new_indices_app, Hn1, Hn2, <- rev_app_distr, seq_glue by lia. done.
  - rewrite count_equal_app. lia.
Qed.

(** One pass of the first loop stays inside the table and the key
    arrays, and moves one step towards the origin. *)
Lemma walk_body_step i j ops :
  1 <= i <= length o -> 1 <= j <= length nw ->
  exists i' j' op,
    walk_body dp o nw (mkWalk i j ops) = Some (mkWalk i' j' (push ops op)) /\
    i' + j' < i + j /\ stretch o nw i j i' j' [op].
Proof.
  intros Hi Hj. destruct Hdp as [Hd Hc].
  destruct i as [|i]; [lia |]. destruct j as [|j]; [lia |].
  destruct (lookup_lt_is_Some_2 o i) as [a Ha]; [lia |].
  destruct (lookup_lt_is_Some_2 nw j) as [b Hb]; [lia |].
  pose proof (lcs_len_S o nw i j) as HS. rewrite Ha, Hb in HS.
  pose proof (lcs_len_mono_r o nw i j) as Hmono.
  unfold walk_body. simpl. rewrite Ha, Hb. simpl.
  destruct (decide (a = b)) as [-> | Hab].
  - exists i, j, (OpEqual i j). split; [done |]. split; [lia |].
    rewrite decide_True in HS by done.
    stretch_one.
  - rewrite decide_False in HS by congruence.
    rewrite !(Hc i j), !(Hc i (S j)), !(Hc (S i) j) by lia. simpl.
    destruct (Nat.leb_spec (lcs_len o nw i (S j)) (lcs_len o nw i j)) as [Hu | Hu];
      simpl;
      [destruct (Nat.leb_spec (lcs_len o nw (S i) j) (lcs_len o nw i j)) as [Hl | Hl];
       simpl |].
    + exists i, j, (OpModify i j). split; [done |]. split; [lia |].
      stretch_one.
    + destruct (Nat.leb_spec (lcs_len o nw (S i) j) (lcs_len o nw i (S j))) as [Hr | Hr].
      * lia.
      * exists (S i), j, (OpAdd j). split; [done |]. split; [lia |].
        stretch_one.
    + destruct (Nat.leb_spec (lcs_len o nw (S i) j) (lcs_len o nw i (S j))) as [Hr | Hr].
      * exists i, (S j), (OpRemove i). split; [done |]. split; [lia |].
        stretch_one.
      * exists (S i), j, (OpAdd j). split; [done |]. split; [lia |].
        stretch_one.
Qed.

(** The first loop ends, on an axis of the table, whenever it is given
    [i + j] passes or more. *)
Lemma walk_loop_total fuel i j ops :
  i <= length o -> j <= length nw -> i + j <= fuel ->
  exists i' j' em,
    walk_loop fuel dp o nw (mkWalk i j ops) = Some (mkWalk i' j' (ops ++ em)) /\
    (i' = 0 \/ j' = 0) /\ stretch o nw i j i' j' em.
Proof.
  revert i j ops. induction fuel as [|fuel IH]; intros i j ops Hi Hj Hf.
  - exists i, j, []. simpl. replace i with 0 by lia. replace j with 0 by lia.
    rewrite app_nil_r. split; [done |]. split; [by left | apply stretch_refl].
  - simpl. destruct (Nat.ltb_spec 0 i) as [Hi0 | Hi0]; simpl;
      [destruct (Nat.ltb_spec 0 j) as [Hj0 | Hj0]; simpl |].
    + destruct (walk_body_step i j ops) as (i1 & j1 & op & Hb & Hlt & Hs);
        [lia | lia |].
      rewrite Hb. simpl.
      pose proof Hs as (Hi1 & Hj1 & _).
      destruct (IH i1 j1 (push ops op)) as (i' & j' & em & Hw & Hax & Hs');
        [lia | lia | lia |].
      exists i', j', ([op] ++ em). split.
      * rewrite Hw. unfold push. by rewrite <- app_assoc.
      * split; [done |]. eapply stretch_trans; [exact Hs | exact Hs'].
    + exists i, j, []. rewrite app_nil_r. split; [done |].
      split; [right; lia | apply stretch_refl].
    + exists i, j, []. rewrite app_nil_r. split; [done |].
      split; [left; lia | apply stretch_refl].
Qed.

(** The second loop, entered on an axis of the table. *)
Lemma drain_old_stretch i j ops :
  i = 0 \/ j = 0 ->
  exists em, drain_old i ops = (0, ops ++ em) /\ stretch o nw i j 0 j em.
Proof.
  intros Hax. revert ops. induction i as [|i IH]; intros ops.
  - exists []. simpl. rewrite app_nil_r. split; [done | apply stretch_refl].
  - destruct Hax as [? | ->]; [lia |].
    destruct (IH (or_intror eq_refl) (push ops (OpRemove i))) as (em & Hd & Hs).
    exists ([OpRemove i] ++ em). split.
    + simpl. rewrite Nat.sub_0_r, Hd. unfold push. by rewrite <- app_assoc.
    + eapply stretch_trans; [| exact Hs].
      stretch_one.
Qed.

(** The third loop; the second one has left [i = 0]. *)
Lemma drain_new_stretch j ops :
  exists em, drain_new j ops = (0, ops ++ em) /\ stretch o nw 0 j 0 0 em.
Proof.
  revert ops. induction j as [|j IH]; intros ops.
  - exists []. simpl. rewrite app_nil_r. split; [done | apply stretch_refl].
  - destruct (IH (push ops (OpAdd j))) as (em & Hd & Hs).
    exists ([OpAdd j] ++ em). split.
    + simpl. rewrite Nat.sub_0_r, Hd. unfold push. by rewrite <- app_assoc.
    + eapply stretch_trans; [| exact Hs]. stretch_one.
Qed.

(** The walk ends at the origin; its script names the old lines
    [0 .. n-1] in order, the new lines [0 .. m-1] in order, and has as
    many [equal] operations as the last cell of the table says. *)
Lemma reconstruct_spec :
  exists ops, reconstruct dp o nw = Some (mkWalk 0 0 ops) /\
    old_indices ops = seq 0 (length o) /\
    new_indices ops = seq 0 (length nw) /\
    count_equal ops = lcs_len o nw (length o) (length nw).
Proof.
  destruct (walk_loop_total (length o + length nw) (length o) (length nw) [])
    as (i1 & j1 & em1 & Hw & Hax & Hs1); [lia | lia | lia |].
  destruct (drain_old_stretch i1 j1 em1 Hax) as (em2 & Hd2 & Hs2).
  destruct (drain_new_stretch j1 (em1 ++ em2)) as (em3 & Hd3 & Hs3).
  pose proof (stretch_trans _ _ _ _ _ _ _ _
                (stretch_trans _ _ _ _ _ _ _ _ Hs1 Hs2) Hs3)
    as (_ & _ & Ho & Hn & Hc).
  exists (rev ((em1 ++ em2) ++ em3)). split_and!.
  - unfold reconstruct. rewrite Hw. simpl. rewrite Hd2, Hd3. done.
  - unfold old_indices in *. rewrite omap_rev, Ho, rev_involutive.
    by rewrite Nat.sub_0_r.
  - unfold new_indices in *. rewrite omap_rev, Hn, rev_involutive.
    by rewrite Nat.sub_0_r.
  - rewrite count_equal_rev. rewrite lcs_len_0_l in Hc. lia.
Qed.
End Walk.

(** ** The projection *)

Lemma set1_middle {A} (l1 l2 : list A) x v :
  set1 (l1 ++ x :: l2) (length l1) v = Some ((l1 ++ [v]) ++ l2).
Proof.
  rewrite set1_Some by (rewrite length_app; simpl; lia).
  rewrite insert_app_r_alt by lia. rewrite Nat.sub_diag. simpl.
  by rewrite <- app_assoc.
Qed.

Lemma seq_cons_inv k lo len l :
  k :: l = seq lo len -> exists len', len = S len' /\ k = lo /\ l = seq (S lo) len'.
Proof.
  destruct len as [|len']; simpl; intros H; [done |].
  exists len'. by simplify_eq.
Qed.

(** A script that names the lines of each side one after the other
    writes its statuses one after the other, inside the arrays. *)
Lemma project_ops_spec ops done_o done_n ro rn :
  old_indices ops = seq (length done_o) ro ->
  new_indices ops = seq (length done_n) rn ->
  project_ops ops (done_o ++ replicate ro unchanged,
                   done_n ++ replicate rn unchanged) =
    Some (done_o ++ omap old_status ops, done_n ++ omap new_status ops).
Proof.
  revert done_o done_n ro rn.
  induction ops as [|op ops IH]; intros done_o done_n ro rn Ho Hn.
  - destruct ro; [| done]. destruct rn; [| done]. done.
  - destruct op as [oi ni | oi | ni | oi ni]; simpl in Ho, Hn.
    + apply seq_cons_inv in Ho as (ro' & -> & -> & Ho).
      apply seq_cons_inv in Hn as (rn' & -> & -> & Hn).
      simpl. rewrite !set1_middle. simpl.
      rewrite IH by (rewrite ?length_app; simpl; rewrite ?Nat.add_1_r; done).
      by rewrite <- !app_assoc.
    + apply seq_cons_inv in Ho as (ro' & -> & -> & Ho).
      simpl. rewrite !set1_middle. simpl.
      rewrite IH by (rewrite ?length_app; simpl; rewrite ?Nat.add_1_r; done).
      by rewrite <- !app_assoc.
    + apply seq_cons_inv in Hn as (rn' & -> & -> & Hn).
      simpl. rewrite !set1_middle. simpl.
      rewrite IH by (rewrite ?length_app; simpl; rewrite ?Nat.add_1_r; done).
      by rewrite <- !app_assoc.
    + apply seq_cons_inv in Ho as (ro' & -> & -> & Ho).
      apply seq_cons_inv in Hn as (rn' & -> & -> & Hn).
      simpl. rewrite !set1_middle. simpl.
      rewrite IH by (rewrite ?length_app; simpl; rewrite ?Nat.add_1_r; done).
      by rewrite <- !app_assoc.
Qed.

Lemma project_spec n m ops :
  old_indices ops = seq 0 n -> new_indices ops = seq 0 m ->
  project n m ops = Some (mkResult (omap old_status ops) (omap new_status ops)).
Proof.
  intros Ho Hn. unfold project.
  pose proof (project_ops_spec ops [] [] n m Ho Hn) as H. simpl in H.
  by rewrite H.
Qed.

Lemma length_omap_old ops : length (omap old_status ops) = length (old_indices ops).
Proof.
  induction ops as [|[] ops IH]; simpl; auto.
Qed.

Lemma length_omap_new ops : length (omap new_status ops) = length (new_indices ops).
Proof.
  induction ops as [|[] ops IH]; simpl; auto.
Qed.

Lemma count_unchanged_old ops :
  count_status unchanged (omap old_status ops) = count_equal ops.
Proof.
  unfold count_status, count_equal.
  induction ops as [|[] ops IH]; simpl; auto;
    rewrite ?filter_cons; simpl; repeat case_decide; simpl; try done; auto.
Qed.

Lemma count_unchanged_new ops :
  count_status unchanged (omap new_status ops) = count_equal ops.
Proof.
  unfold count_status, count_equal.
  induction ops as [|[] ops IH]; simpl; auto;
    rewrite ?filter_cons; simpl; repeat case_decide; simpl; try done; auto.
Qed.

(** ** The whole function *)

(** [computeLineDiff] returns; its statuses are the ones of the script it
    built, read in order. *)
Lemma computeLineDiff_spec oldText newText :
  exists ops,
    computeOps oldText newText = Some (mkWalk 0 0 ops) /\
    computeLineDiff oldText newText =
      Some (mkResult (omap old_status ops) (omap new_status ops)) /\
    old_indices ops = seq 0 (length (keys oldText)) /\
    new_indices ops = seq 0 (length (keys newText)) /\
    count_equal ops =
      lcs_len (keys oldText) (keys newText)
        (length (keys oldText)) (length (keys newText)).
Proof.
  destruct (build_dp_table (keys oldText) (keys newText)) as (dp & Hb & Ht).
  destruct (reconstruct_spec _ _ dp Ht) as (ops & Hr & Ho & Hn & Hc).
  exists ops. unfold computeOps, computeLineDiff. fold (keys oldText) (keys newText).
  rewrite Hb. simpl. rewrite Hr. simpl. split_and!; try done.
  by apply project_spec.
Qed.

(** More fuel does not change what the first loop returns. *)
Lemma walk_loop_fuel_mono fuel k dp o nw s s' :
  walk_loop fuel dp o nw s = Some s' ->
  walk_loop (fuel + k) dp o nw s = Some s'.
Proof.
  revert s. induction fuel as [|fuel IH]; intros s; simpl.
  - destruct ((0 <? w_i s) && (0 <? w_j s)) eqn:E; [done |].
    intros H. destruct k; simpl; by rewrite E.
  - destruct ((0 <? w_i s) && (0 <? w_j s)); [| done].
    destruct (walk_body dp o nw s) as [t|]; simpl; [apply IH | done].
Qed.

Lemma count_status_full v l :
  count_status v l = length l -> l = replicate (length l) v.
Proof.
  unfold count_status. induction l as [|x l IH]; [done |].
  rewrite filter_cons. case_decide as Hx; simpl.
  - intros H. rewrite <- IH by lia. by subst.
  - intros H. pose proof (length_filter (fun y => y = v) l). lia.
Qed.

(** Texts with the same keys, line by line, are all [unchanged]. *)
Lemma same_keys_unchanged oldText newText :
  keys oldText = keys newText ->
  computeLineDiff oldText newText =
    Some (all_unchanged (length (split oldText)) (length (split newText))).
Proof.
  intros Hk.
  destruct (computeLineDiff_spec oldText newText) as (ops & _ & Hr & Ho & Hn & Hc).
  rewrite Hr. unfold all_unchanged. rewrite <- !keys_length.
  rewrite <- Hk in Hn, Hc |- *. rewrite lcs_len_diag in Hc by done.
  do 2 f_equal.
  - rewrite (count_status_full unchanged (omap old_status ops));
      rewrite length_omap_old, Ho, length_seq; [done |].
    by rewrite count_unchanged_old.
  - rewrite (count_status_full unchanged (omap new_status ops));
      rewrite length_omap_new, Hn, length_seq; [done |].
    by rewrite count_unchanged_new.
Qed.

Lemma filter_seq_eq k lo n :
  length (filter (fun x => x = k) (seq lo n)) =
    if decide (lo <= k < lo + n) then 1 else 0.
Proof.
  revert lo. induction n as [|n IH]; intros lo; simpl.
  - by rewrite decide_False by lia.
  - rewrite filter_cons.
    destruct (decide (lo = k)); simpl; rewrite IH; repeat case_decide; lia.
Qed.

Lemma mentions_old ops k :
  length (filter (fun op => old_index op = Some k) ops) =
    length (filter (fun x => x = k) (old_indices ops)).
Proof.
  induction ops as [|op ops IH]; [done |].
  rewrite filter_cons. unfold old_indices in *.
  change (omap old_index (op :: ops))
    with (match old_index op with
          | Some x => x :: omap old_index ops
          | None => omap old_index ops
          end).
  destruct (old_index op) as [x|].
  - rewrite filter_cons. destruct (decide (x = k)) as [-> | Hx].
    + rewrite decide_True by done. simpl. by rewrite IH.
    + rewrite decide_False by congruence. done.
  - by rewrite decide_False.
Qed.

Lemma mentions_new ops k :
  length (filter (fun op => new_index op = Some k) ops) =
    length (filter (fun x => x = k) (new_indices ops)).
Proof.
  induction ops as [|op ops IH]; [done |].
  rewrite filter_cons. unfold new_indices in *.
  change (omap new_index (op :: ops))
    with (match new_index op with
          | Some x => x :: omap new_index ops
          | None => omap new_index ops
          end).
  destruct (new_index op) as [x|].
  - rewrite filter_cons. destruct (decide (x = k)) as [-> | Hx].
    + rewrite decide_True by done. simpl. by rewrite IH.
    + rewrite decide_False by congruence. done.
  - by rewrite decide_False.
Qed.

(** ** The function on small inputs *)

Example pure_insertion :
  computeLineDiff (js "a" ++ nl ++ js "b") (js "a" ++ nl ++ js "b" ++ nl ++ js "c") =
    Some (mkResult [unchanged; unchanged] [unchanged; unchanged; added]).
Proof. vm_compute. reflexivity. Qed.

Example pure_deletion :
  computeLineDiff (js "a" ++ nl ++ js "b" ++ nl ++ js "c") (js "a" ++ nl ++ js "c") =
    Some (mkResult [unchanged; removed; unchanged] [unchanged; unchanged]).
Proof. vm_compute. reflexivity. Qed.

Example both_empty :
  computeLineDiff [] [] = Some (mkResult [unchanged] [unchanged]).
Proof. vm_compute. reflexivity. Qed.

Example split_keeps_empty_pieces :
  split (nl ++ js "a" ++ nl ++ nl) = [[]; js "a"; []; []].
Proof. reflexivity. Qed.

Example rstrip_keeps_inner_space :
  rstrip (js " a b" ++ [9; 32; 160; CR]%N) = js " a b".
Proof. reflexivity. Qed.

(** * The claims *)

(** C1. For oldText = "a\nb" and newText = "a\nc" the result is
    old = [unchanged; modified], new = [unchanged; modified]: the script is
    one [equal] and one [modify] that pairs the two second lines, with no
    [remove] and no [add]. *)
Theorem C1_substitution_pairing :
  computeLineDiff (js "a" ++ nl ++ js "b") (js "a" ++ nl ++ js "c") =
    Some (mkResult [unchanged; modified] [unchanged; modified]) /\
  computeOps (js "a" ++ nl ++ js "b") (js "a" ++ nl ++ js "c") =
    Some (mkWalk 0 0 [OpEqual 0 0; OpModify 1 1]).
Proof. split; vm_compute; reflexivity. Qed.

(** C2. For every text T, [computeLineDiff T T] returns [unchanged] at
    every index of both status arrays. *)
Theorem C2_identity (T : jsstring) :
  computeLineDiff T T =
    Some (mkResult (replicate (length (split T)) unchanged)
                   (replicate (length (split T)) unchanged)).
Proof. by apply same_keys_unchanged. Qed.

(** C3. For all texts A and B the number of [unchanged] lines of
    [computeLineDiff A B] and of [computeLineDiff B A] is the same, on
    the old and on the new side; the number of [added] lines of the first
    can differ from the number of [removed] lines of the second when a
    [modified] pair is there. *)
Theorem C3_unchanged_counts_symmetric :
  (forall A B : jsstring,
     exists rAB rBA,
       computeLineDiff A B = Some rAB /\ computeLineDiff B A = Some rBA /\
       count_status unchanged (oldStatuses rAB) =
         count_status unchanged (oldStatuses rBA) /\
       count_status unchanged (newStatuses rAB) =
         count_status unchanged (newStatuses rBA) /\
       count_status unchanged (oldStatuses rAB) =
         count_status unchanged (newStatuses rBA) /\
       count_status unchanged (newStatuses rAB) =
         count_status unchanged (oldStatuses rBA)) /\
  (exists (A B : jsstring) rAB rBA,
     computeLineDiff A B = Some rAB /\ computeLineDiff B A = Some rBA /\
     count_status modified (oldStatuses rBA) = 1 /\
     count_status added (newStatuses rAB) = 2 /\
     count_status removed (oldStatuses rBA) = 1).
Proof.
  split.
  - intros A B.
    destruct (computeLineDiff_spec A B) as (ops1 & _ & Hr1 & _ & _ & Hc1).
    destruct (computeLineDiff_spec B A) as (ops2 & _ & Hr2 & _ & _ & Hc2).
    rewrite lcs_len_sym, <- Hc1 in Hc2.
    eexists _, _. split; [exact Hr1 |]. split; [exact Hr2 |]. simpl.
    rewrite !count_unchanged_old, !count_unchanged_new. by rewrite Hc2.
  - exists (js "a" ++ nl ++ js "b"), (js "c" ++ nl ++ js "b" ++ nl ++ js "a").
    eexists _, _. split; [vm_compute; reflexivity |].
    split; [vm_compute; reflexivity |]. by vm_compute.
Qed.

(** C4. For all key sequences of lengths n and m, [build_dp] returns an
    (n+1) x (m+1) table whose row 0 and column 0 are 0 and whose cell
    (i, j), for 1 <= i <= n and 1 <= j <= m, is cell (i-1, j-1) + 1 when
    old key i-1 equals new key j-1, and the larger of cell (i-1, j) and
    cell (i, j-1) otherwise. *)
Theorem C4_matrix_recurrence (o nw : list jsstring) :
  exists dp,
    build_dp o nw = Some dp /\
    dims (length o) (length nw) dp /\
    (forall j, j <= length nw -> get2 dp 0 j = Some 0) /\
    (forall i, i <= length o -> get2 dp i 0 = Some 0) /\
    (forall i j, 1 <= i <= length o -> 1 <= j <= length nw ->
       exists a b d u l,
         o !! (i - 1) = Some a /\ nw !! (j - 1) = Some b /\
         get2 dp (i - 1) (j - 1) = Some d /\
         get2 dp (i - 1) j = Some u /\
         get2 dp i (j - 1) = Some l /\
         get2 dp i j = Some (if decide (a = b) then d + 1 else Nat.max u l)).
Proof.
  destruct (build_dp_lcs o nw) as (dp & Hb & Hd & Hc).
  exists dp. split_and!; try done.
  - intros j Hj. by rewrite Hc by lia.
  - intros i Hi. rewrite Hc by lia. by rewrite lcs_len_0_r.
  - intros i j Hi Hj.
    destruct (lookup_lt_is_Some_2 o (i - 1)) as [a Ha]; [lia |].
    destruct (lookup_lt_is_Some_2 nw (j - 1)) as [b Hb']; [lia |].
    exists a, b, (lcs_len o nw (i - 1) (j - 1)), (lcs_len o nw (i - 1) j),
      (lcs_len o nw i (j - 1)).
    rewrite (Hc (i - 1) (j - 1)), (Hc (i - 1) j), (Hc i (j - 1)), (Hc i j) by lia.
    split_and!; try done.
    destruct i as [|i]; [lia |]. destruct j as [|j]; [lia |].
    simpl in *. rewrite !Nat.sub_0_r in *.
    rewrite lcs_len_S, Ha, Hb'. f_equal.
    destruct (decide (a = b)) as [-> | Hab].
    + rewrite !decide_True by done. lia.
    + by rewrite !decide_False by congruence.
Qed.

Lemma C4_matrix_recurrence_witness :
  exists dp,
    build_dp [js "a"; js "b"] [js "a"; js "c"] = Some dp /\
    get2 dp 1 1 = Some 1.
Proof.
  destruct (C4_matrix_recurrence [js "a"; js "b"] [js "a"; js "c"])
    as (dp & Hb & _ & Hrow & _ & Hrec).
  exists dp. split; [exact Hb |].
  destruct (Hrec 1 1) as (a & b & d & u & l & Ha & Hb' & Hd & _ & _ & Hv);
    [simpl; lia | simpl; lia |].
  simpl in Ha, Hb', Hd. rewrite Hrow in Hd by (simpl; lia).
  injection Ha as <-. injection Hb' as <-. injection Hd as <-.
  exact Hv.
Defined.

(** C5. For every pair of texts, empty ones included, [oldStatuses] has
    as many entries as [oldText.split('\n')] has lines and [newStatuses]
    as many as [newText.split('\n')]; the empty text splits into exactly
    one empty line, so neither array is ever empty. *)
Theorem C5_status_lengths (oldText newText : jsstring) :
  exists r,
    computeLineDiff oldText newText = Some r /\
    length (oldStatuses r) = length (split oldText) /\
    length (newStatuses r) = length (split newText) /\
    split [] = [[]] /\
    1 <= length (oldStatuses r) /\ 1 <= length (newStatuses r).
Proof.
  destruct (computeLineDiff_spec oldText newText) as (ops & _ & Hr & Ho & Hn & _).
  eexists. split; [exact Hr |]. simpl.
  rewrite length_omap_old, length_omap_new, Ho, Hn, !length_seq, !keys_length.
  split_and!; try done; apply split_length.
Qed.

(** C6. For every pair of texts, the script the walk hands to the
    projection names each old line 0..n-1 exactly once among its equal,
    remove and modify operations, and each new line 0..m-1 exactly once
    among its equal, add and modify operations (and no other index); the
    lines come in increasing order. *)
Theorem C6_script_covers_once (oldText newText : jsstring) :
  exists ops,
    computeOps oldText newText = Some (mkWalk 0 0 ops) /\
    computeLineDiff oldText newText =
      project (length (split oldText)) (length (split newText)) ops /\
    old_indices ops = seq 0 (length (split oldText)) /\
    new_indices ops = seq 0 (length (split newText)) /\
    (forall k, length (filter (fun op => old_index op = Some k) ops) =
               if decide (k < length (split oldText)) then 1 else 0) /\
    (forall k, length (filter (fun op => new_index op = Some k) ops) =
               if decide (k < length (split newText)) then 1 else 0).
Proof.
  destruct (computeLineDiff_spec oldText newText) as (ops & Hops & Hr & Ho & Hn & _).
  rewrite !keys_length in *.
  exists ops. split_and!; try done.
  - rewrite Hr. symmetry. by apply project_spec.
  - intros k. rewrite mentions_old, Ho, filter_seq_eq.
    repeat case_decide; lia.
  - intros k. rewrite mentions_new, Hn, filter_seq_eq.
    repeat case_decide; lia.
Qed.

(** C7. [computeLineDiff "a \nb" "a\nb"] is all [unchanged] on both
    sides; in general white space at the end of a line is not part of its
    key, the statuses depend on the keys alone, and texts whose lines
    agree up to such white space are all [unchanged]. *)
Theorem C7_trailing_whitespace :
  computeLineDiff (js "a " ++ nl ++ js "b") (js "a" ++ nl ++ js "b") =
    Some (mkResult [unchanged; unchanged] [unchanged; unchanged]) /\
  (forall (line : jsstring) (c : N),
     is_ws c = true -> rstrip (line ++ [c]) = rstrip line) /\
  (forall oldText oldText' newText newText' : jsstring,
     map rstrip (split oldText) = map rstrip (split oldText') ->
     map rstrip (split newText) = map rstrip (split newText') ->
     computeLineDiff oldText newText = computeLineDiff oldText' newText') /\
  (forall oldText newText : jsstring,
     map rstrip (split oldText) = map rstrip (split newText) ->
     computeLineDiff oldText newText =
       Some (all_unchanged (length (split oldText)) (length (split newText)))).
Proof.
  split_and!.
  - vm_compute; reflexivity.
  - intros line c. apply rstrip_snoc_ws.
  - intros oldText oldText' newText newText' Ho Hn.
    unfold computeLineDiff. by rewrite Ho, Hn.
  - apply same_keys_unchanged.
Qed.

Lemma C7_trailing_whitespace_witness :
  rstrip (js "a" ++ [32%N]) = rstrip (js "a") /\
  computeLineDiff (js "a" ++ [32%N; 9%N] ++ nl ++ js "b  ")
                  (js "a" ++ nl ++ js "b") =
    Some (all_unchanged 2 2).
Proof.
  destruct C7_trailing_whitespace as (_ & Hstrip & _ & Hsame).
  split.
  - apply Hstrip. reflexivity.
  - apply (Hsame (js "a" ++ [32%N; 9%N] ++ nl ++ js "b  ")
             (js "a" ++ nl ++ js "b")).
    reflexivity.
Defined.

(** C8. [computeLineDiff] is total: for every pair of texts every checked
    access stays inside its array, the walk ends with i = 0 and j = 0
    within the passes it is given, and a result comes back. *)
Theorem C8_total (oldText newText : jsstring) :
  exists dp ops r,
    build_dp (keys oldText) (keys newText) = Some dp /\
    reconstruct dp (keys oldText) (keys newText) = Some (mkWalk 0 0 ops) /\
    project (length (keys oldText)) (length (keys newText)) ops = Some r /\
    computeLineDiff oldText newText = Some r.
Proof.
  destruct (build_dp_table (keys oldText) (keys newText)) as (dp & Hb & Ht).
  destruct (reconstruct_spec _ _ dp Ht) as (ops & Hr & Ho & Hn & _).
  exists dp, ops. eexists. split; [exact Hb |]. split; [exact Hr |].
  rewrite (project_spec _ _ ops Ho Hn). split; [reflexivity |].
  unfold computeLineDiff. fold (keys oldText) (keys newText).
  rewrite Hb. simpl. rewrite Hr. simpl. by apply project_spec.
Qed.

(** C9. [computeLineDiff "" "x"] returns old = [modified] and
    new = [modified]: all four cells of the table are 0, the tie-break
    takes the diagonal and the script is the single [modify 0 0]. *)
Theorem C9_empty_against_one_line :
  computeLineDiff [] (js "x") = Some (mkResult [modified] [modified]) /\
  build_dp (keys []) (keys (js "x")) = Some [[0; 0]; [0; 0]] /\
  computeOps [] (js "x") = Some (mkWalk 0 0 [OpModify 0 0]).
Proof. split_and!; vm_compute; reflexivity. Qed.

(** C10. If the two texts differ only in the style of their line ends
    (CRLF against LF) every line is [unchanged] on both sides: the split
    is on the line feed alone, and the carriage return it leaves at the
    end of a line is white space, so it is not part of the key. *)
Theorem C10_line_ending_style (oldText newText : jsstring) :
  eol_equiv oldText newText ->
  computeLineDiff oldText newText =
    Some (all_unchanged (length (split oldText)) (length (split newText))) /\
  length (split oldText) = length (split newText) /\
  map rstrip (split oldText) = map rstrip (split newText) /\
  (forall a b, split (a ++ [CR; LF] ++ b) = split (a ++ [CR]) ++ split b) /\
  (forall line, rstrip (line ++ [CR]) = rstrip line).
Proof.
  intros H. pose proof (eol_equiv_keys _ _ H) as Hk.
  split_and!.
  - by apply same_keys_unchanged.
  - rewrite <- !keys_length. by rewrite Hk.
  - exact Hk.
  - intros a b. rewrite <- split_app_LF. by rewrite <- app_assoc.
  - intros line. by apply rstrip_snoc_ws.
Qed.

Lemma C10_line_ending_style_witness :
  computeLineDiff (js "a" ++ [CR; LF] ++ js "b" ++ [CR; LF])
                  (js "a" ++ [LF] ++ js "b" ++ [LF]) =
    Some (all_unchanged 3 3).
Proof.
  apply (C10_line_ending_style (js "a" ++ [CR; LF] ++ js "b" ++ [CR; LF])
           (js "a" ++ [LF] ++ js "b" ++ [LF])).
  vm_compute. repeat constructor.
Defined.

(** * Further properties of the line diff *)

(** ** The script agrees with the keys *)

Lemma walk_body_sound dp o nw s s' :
  walk_body dp o nw s = Some s' ->
  exists op, w_ops s' = push (w_ops s) op /\ op_sound o nw op.
Proof.
  unfold walk_body. intros H.
  destruct (pred_index (w_i s)) as [i1|]; [| done].
  destruct (pred_index (w_j s)) as [j1|]; [| done]. simpl in H.
  destruct (o !! i1) as [a|] eqn:Ha; [| done].
  destruct (nw !! j1) as [b|] eqn:Hb; [| done]. simpl in H.
  destruct (decide (a = b)) as [-> | Hab].
  - injection H as <-. eexists. split; [done |]. simpl. eauto.
  - destruct (get2 dp i1 j1) as [d|]; [| done]. simpl in H.
    destruct (get2 dp i1 (w_j s)) as [u|]; [| done]. simpl in H.
    destruct (get2 dp (w_i s) j1) as [l|];
      destruct (u <=? d); simpl in H; try done;
      try destruct (l <=? d); simpl in H; try done;
      try destruct (l <=? u); simpl in H; try done;
      injection H as <-; eexists; (split; [done |]); simpl; eauto.
Qed.

Lemma walk_loop_sound fuel dp o nw s s' :
  Forall (op_sound o nw) (w_ops s) ->
  walk_loop fuel dp o nw s = Some s' ->
  Forall (op_sound o nw) (w_ops s').
Proof.
  revert s. induction fuel as [|fuel IH]; intros s Hs; simpl.
  - destruct ((0 <? w_i s) && (0 <? w_j s)); [done |]. by intros [= <-].
  - destruct ((0 <? w_i s) && (0 <? w_j s)); [| by intros [= <-]].
    destruct (walk_body dp o nw s) as [t|] eqn:Hb; [| done]. simpl.
    apply IH. destruct (walk_body_sound _ _ _ _ _ Hb) as (op & -> & Hop).
    apply Forall_app. split; [done |]. by constructor.
Qed.

Lemma drain_old_sound o nw i ops :
  Forall (op_sound o nw) ops -> Forall (op_sound o nw) (drain_old i ops).2.
Proof.
  revert ops. induction i as [|i IH]; intros ops H; [done |].
  simpl. apply IH. apply Forall_app. split; [done |]. by constructor.
Qed.

Lemma drain_new_sound o nw j ops :
  Forall (op_sound o nw) ops -> Forall (op_sound o nw) (drain_new j ops).2.
Proof.
  revert ops. induction j as [|j IH]; intros ops H; [done |].
  simpl. apply IH. apply Forall_app. split; [done |]. by constructor.
Qed.

(** Whatever table it is given, the walk only calls two lines equal when
    their keys are, and only pairs two lines as modified when they are not. *)
Lemma reconstruct_sound dp o nw s :
  reconstruct dp o nw = Some s -> Forall (op_sound o nw) (w_ops s).
Proof.
  unfold reconstruct. intros H.
  destruct (walk_loop _ dp o nw _) as [t|] eqn:Hw; [| done]. simpl in H.
  assert (Ht : Forall (op_sound o nw) (w_ops t)).
  { eapply walk_loop_sound; [| exact Hw]. simpl. constructor. }
  pose proof (drain_old_sound o nw (w_i t) (w_ops t) Ht) as H1.
  destruct (drain_old (w_i t) (w_ops t)) as [i ops1]. simpl in H1.
  pose proof (drain_new_sound o nw (w_j t) ops1 H1) as H2.
  destruct (drain_new (w_j t) ops1) as [j ops2]. simpl in H2.
  injection H as <-. simpl.
  apply Forall_forall. intros op Hop. rewrite Forall_forall in H2. apply H2.
  apply list_elem_of_In, in_rev. by apply list_elem_of_In.
Qed.

(** The script of [computeLineDiff], with all that is known about it. *)
Lemma script_facts oldText newText :
  exists ops,
    computeLineDiff oldText newText =
      Some (mkResult (omap old_status ops) (omap new_status ops)) /\
    old_indices ops = seq 0 (length (keys oldText)) /\
    new_indices ops = seq 0 (length (keys newText)) /\
    count_equal ops =
      lcs_len (keys oldText) (keys newText)
        (length (keys oldText)) (length (keys newText)) /\
    Forall (op_sound (keys oldText) (keys newText)) ops.
Proof.
  destruct (computeLineDiff_spec oldText newText) as (ops & Hops & Hr & Ho & Hn & Hc).
  exists ops. split_and!; try done.
  unfold computeOps in Hops. fold (keys oldText) (keys newText) in Hops.
  destruct (build_dp (keys oldText) (keys newText)) as [dp|]; [| done].
  simpl in Hops. by apply reconstruct_sound in Hops.
Qed.

(** ** Counting the statuses through the script *)

Lemma omap_cons_eq {A B} (f : A -> option B) (x : A) (l : list A) :
  omap f (x :: l) =
    match f x with Some y => y :: omap f l | None => omap f l end.
Proof. reflexivity. Qed.

Lemma count_removed_old ops :
  count_status removed (omap old_status ops) = count_ops is_remove ops.
Proof.
  unfold count_status, count_ops.
  induction ops as [|[] ops IH]; simpl; auto;
    rewrite ?filter_cons; simpl; repeat case_decide; simpl; try done; auto.
Qed.

Lemma count_modified_old ops :
  count_status modified (omap old_status ops) = count_ops is_modify ops.
Proof.
  unfold count_status, count_ops.
  induction ops as [|[] ops IH]; simpl; auto;
    rewrite ?filter_cons; simpl; repeat case_decide; simpl; try done; auto.
Qed.

Lemma count_added_old ops : count_status added (omap old_status ops) = 0.
Proof.
  unfold count_status.
  induction ops as [|[] ops IH]; simpl; auto;
    rewrite ?filter_cons; simpl; repeat case_decide; simpl; try done; auto.
Qed.

Lemma count_added_new ops :
  count_status added (omap new_status ops) = count_ops is_add ops.
Proof.
  unfold count_status, count_ops.
  induction ops as [|[] ops IH]; simpl; auto;
    rewrite ?filter_cons; simpl; repeat case_decide; simpl; try done; auto.
Qed.

Lemma count_modified_new ops :
  count_status modified (omap new_status ops) = count_ops is_modify ops.
Proof.
  unfold count_status, count_ops.
  induction ops as [|[] ops IH]; simpl; auto;
    rewrite ?filter_cons; simpl; repeat case_decide; simpl; try done; auto.
Qed.

Lemma count_removed_new ops : count_status removed (omap new_status ops) = 0.
Proof.
  unfold count_status.
  induction ops as [|[] ops IH]; simpl; auto;
    rewrite ?filter_cons; simpl; repeat case_decide; simpl; try done; auto.
Qed.

Lemma length_old_indices ops :
  length (old_indices ops) =
    count_equal ops + count_ops is_remove ops + count_ops is_modify ops.
Proof.
  unfold old_indices, count_equal, count_ops.
  induction ops as [|op ops IH]; [done |].
  rewrite omap_cons_eq, !filter_cons.
  destruct op; cbn [old_index is_equal is_remove is_modify];
    repeat case_decide; try done; cbn [length]; lia.
Qed.

Lemma length_new_indices ops :
  length (new_indices ops) =
    count_equal ops + count_ops is_add ops + count_ops is_modify ops.
Proof.
  unfold new_indices, count_equal, count_ops.
  induction ops as [|op ops IH]; [done |].
  rewrite omap_cons_eq, !filter_cons.
  destruct op; cbn [new_index is_equal is_add is_modify];
    repeat case_decide; try done; cbn [length]; lia.
Qed.

(** The counts of the two status arrays, read off the script. *)
Lemma status_counts oldText newText :
  exists r,
    computeLineDiff oldText newText = Some r /\
    count_status added (oldStatuses r) = 0 /\
    count_status removed (newStatuses r) = 0 /\
    count_status modified (oldStatuses r) = count_status modified (newStatuses r) /\
    count_status unchanged (oldStatuses r) = count_status unchanged (newStatuses r) /\
    count_status unchanged (oldStatuses r) + count_status removed (oldStatuses r) +
      count_status modified (oldStatuses r) = length (split oldText) /\
    count_status unchanged (newStatuses r) + count_status added (newStatuses r) +
      count_status modified (newStatuses r) = length (split newText) /\
    length (oldStatuses r) = length (split oldText) /\
    length (newStatuses r) = length (split newText).
Proof.
  destruct (script_facts oldText newText) as (ops & Hr & Ho & Hn & _ & _).
  eexists. split; [exact Hr |]. simpl.
  rewrite length_omap_old, length_omap_new.
  rewrite count_added_old, count_removed_new, count_modified_old,
    count_modified_new, count_unchanged_old, count_unchanged_new,
    count_removed_old, count_added_new.
  pose proof (length_old_indices ops) as Hlo.
  pose proof (length_new_indices ops) as Hln.
  rewrite Ho, length_seq, keys_length in Hlo.
  rewrite Hn, length_seq, keys_length in Hln.
  rewrite Ho, Hn, !length_seq, !keys_length.
  split_and!; try done; lia.
Qed.

(** ** The lines of one status *)

Lemma select_nil_r v ks : select v ks [] = [].
Proof. unfold select. by destruct ks. Qed.

Lemma select_cons v k ks st sts :
  select v (k :: ks) (st :: sts) =
    if decide (st = v) then k :: select v ks sts else select v ks sts.
Proof. unfold select. simpl. by case_decide. Qed.

Lemma select_sublist v ks sts : select v ks sts `sublist_of` ks.
Proof.
  revert sts. induction ks as [|k ks IH]; intros sts.
  - by destruct sts.
  - destruct sts as [|st sts].
    + rewrite select_nil_r. apply sublist_nil_l.
    + rewrite select_cons. case_decide.
      * by apply sublist_skip.
      * by apply sublist_cons.
Qed.

Lemma select_length v ks sts :
  length sts <= length ks -> length (select v ks sts) = count_status v sts.
Proof.
  unfold count_status. revert ks. induction sts as [|st sts IH]; intros ks Hl.
  - by rewrite select_nil_r.
  - destruct ks as [|k ks]; simpl in Hl; [lia |].
    rewrite select_cons, filter_cons. case_decide; simpl; rewrite IH by lia; done.
Qed.

Lemma select_script_old v o ops k len :
  old_indices ops = seq k len -> k + len <= length o ->
  select v (drop k o) (omap old_status ops) = omap (old_pick v o) ops.
Proof.
  revert k len. induction ops as [|op ops IH]; intros k len Hi Hl.
  - apply select_nil_r.
  - unfold old_indices in Hi. rewrite omap_cons_eq in Hi. rewrite !omap_cons_eq.
    unfold old_pick at 1.
    destruct op as [oi ni | oi | ni | oi ni]; cbn [old_index old_status] in *;
      try (apply seq_cons_inv in Hi as (len' & -> & -> & Hi);
           destruct (lookup_lt_is_Some_2 o k) as [x Hx]; [lia |];
           rewrite (drop_S _ _ _ Hx), select_cons, Hx;
           rewrite (IH (S k) len') by (done || lia);
           by case_decide).
    by apply (IH k len).
Qed.

Lemma select_script_new v nw ops k len :
  new_indices ops = seq k len -> k + len <= length nw ->
  select v (drop k nw) (omap new_status ops) = omap (new_pick v nw) ops.
Proof.
  revert k len. induction ops as [|op ops IH]; intros k len Hi Hl.
  - apply select_nil_r.
  - unfold new_indices in Hi. rewrite omap_cons_eq in Hi. rewrite !omap_cons_eq.
    unfold new_pick at 1.
    destruct op as [oi ni | oi | ni | oi ni]; cbn [new_index new_status] in *;
      try (apply seq_cons_inv in Hi as (len' & -> & -> & Hi);
           destruct (lookup_lt_is_Some_2 nw k) as [x Hx]; [lia |];
           rewrite (drop_S _ _ _ Hx), select_cons, Hx;
           rewrite (IH (S k) len') by (done || lia);
           by case_decide).
    by apply (IH k len).
Qed.

(** The picks of the two sides, operation by operation. *)
Lemma picks_unchanged o nw ops :
  Forall (op_sound o nw) ops ->
  omap (old_pick unchanged o) ops = omap (new_pick unchanged nw) ops.
Proof.
  induction 1 as [|op ops Hop _ IH]; [done |].
  rewrite !omap_cons_eq, IH.
  destruct op as [oi ni | oi | ni | oi ni]; try done.
  destruct Hop as (k & Ho & Hn). unfold old_pick, new_pick. simpl.
  by rewrite Ho, Hn.
Qed.

Lemma picks_modified o nw ops :
  Forall (op_sound o nw) ops ->
  Forall2 (fun a b => a <> b)
    (omap (old_pick modified o) ops) (omap (new_pick modified nw) ops).
Proof.
  induction 1 as [|op ops Hop _ IH]; [constructor |].
  rewrite !omap_cons_eq.
  destruct op as [oi ni | oi | ni | oi ni]; try done.
  destruct Hop as (a & b & Ho & Hn & Hab). unfold old_pick, new_pick. simpl.
  rewrite Ho, Hn. by constructor.
Qed.

(** ** Common subsequences and the table *)

Lemma sublist_snoc_inv {A} (s l : list A) (x y : A) :
  s ++ [x] `sublist_of` l ++ [y] -> s `sublist_of` l.
Proof.
  intros H. apply sublist_app_r in H as (k1 & k2 & Hk & H1 & H2).
  apply sublist_cons_r in H2 as [H2 | (k2' & -> & H2)].
  - apply sublist_nil_r in H2 as ->. rewrite app_nil_r in Hk. subst k1.
    etrans; [| exact H1]. by apply sublist_inserts_r.
  - apply sublist_nil_r in H2 as ->. apply app_inj_tail in Hk as [-> _]. done.
Qed.

Lemma sublist_snoc_ne {A} (s l : list A) (x y : A) :
  x <> y -> s ++ [x] `sublist_of` l ++ [y] -> s ++ [x] `sublist_of` l.
Proof.
  intros Hne H. apply sublist_app_r in H as (k1 & k2 & Hk & H1 & H2).
  apply sublist_cons_r in H2 as [H2 | (k2' & -> & H2)].
  - apply sublist_nil_r in H2 as ->. rewrite app_nil_r in Hk. by subst k1.
  - apply sublist_nil_r in H2 as ->. apply app_inj_tail in Hk as [_ ->]. done.
Qed.

(** No common subsequence of the first [i] old keys and the first [j]
    new keys is longer than the cell [(i, j)] says. *)
Lemma lcs_len_upper o nw i j s :
  i <= length o -> j <= length nw ->
  s `sublist_of` take i o -> s `sublist_of` take j nw ->
  length s <= lcs_len o nw i j.
Proof.
  revert j s. induction i as [|i IHi]; intros j s Hi Hj Ho Hn.
  - rewrite take_0 in Ho. apply sublist_nil_r in Ho as ->. simpl. lia.
  - revert s Ho Hn. induction j as [|j IHj]; intros s Ho Hn.
    + rewrite take_0 in Hn. apply sublist_nil_r in Hn as ->. simpl. lia.
    + destruct (lookup_lt_is_Some_2 o i) as [a Ha]; [lia |].
      destruct (lookup_lt_is_Some_2 nw j) as [b Hb]; [lia |].
      rewrite (take_S_r _ _ _ Ha) in Ho. rewrite (take_S_r _ _ _ Hb) in Hn.
      rewrite lcs_len_S, Ha, Hb.
      destruct s as [|x s _] using rev_ind; [simpl; lia |].
      rewrite length_app. simpl.
      destruct (decide (a = b)) as [-> | Hab].
      * rewrite decide_True by done.
        apply sublist_snoc_inv in Ho. apply sublist_snoc_inv in Hn.
        specialize (IHi j s ltac:(lia) ltac:(lia) Ho Hn). lia.
      * rewrite decide_False by congruence.
        destruct (decide (x = a)) as [-> | Hxa].
        -- apply sublist_snoc_ne in Hn; [| done].
           rewrite <- (take_S_r _ _ _ Ha) in Ho.
           specialize (IHj ltac:(lia) (s ++ [a]) Ho Hn).
           rewrite length_app in IHj. simpl in IHj. lia.
        -- apply sublist_snoc_ne in Ho; [| done].
           rewrite <- (take_S_r _ _ _ Hb) in Hn.
           specialize (IHi (S j) (s ++ [x]) ltac:(lia) ltac:(lia) Ho Hn).
           rewrite length_app in IHi. simpl in IHi. lia.
Qed.

Lemma lcs_len_max o nw s :
  s `sublist_of` o -> s `sublist_of` nw ->
  length s <= lcs_len o nw (length o) (length nw).
Proof.
  intros Ho Hn. apply lcs_len_upper; try done; by rewrite firstn_all.
Qed.

(** ** What the statuses say about the two texts *)

Lemma count_status_0 v l : count_status v l = 0 -> v ∉ l.
Proof.
  unfold count_status. induction l as [|x l IH]; [intros _; apply not_elem_of_nil |].
  rewrite filter_cons. case_decide as Hx; simpl; [done |].
  intros H0. apply not_elem_of_cons. split; [congruence | by apply IH].
Qed.

Lemma select_all v ks : select v ks (replicate (length ks) v) = ks.
Proof.
  induction ks as [|k ks IH]; [done |].
  simpl replicate. rewrite select_cons, decide_True by done. by rewrite IH.
Qed.

(** The unchanged lines of the two sides have the same keys, in the same
    order, and there are as many as the last cell of the table says. *)
Lemma unchanged_common oldText newText :
  exists r,
    computeLineDiff oldText newText = Some r /\
    select unchanged (keys oldText) (oldStatuses r) =
      select unchanged (keys newText) (newStatuses r) /\
    length (select unchanged (keys oldText) (oldStatuses r)) =
      count_status unchanged (oldStatuses r) /\
    count_status unchanged (oldStatuses r) =
      lcs_len (keys oldText) (keys newText)
        (length (keys oldText)) (length (keys newText)) /\
    Forall2 (fun a b => a <> b)
      (select modified (keys oldText) (oldStatuses r))
      (select modified (keys newText) (newStatuses r)).
Proof.
  destruct (script_facts oldText newText) as (ops & Hr & Ho & Hn & Hc & Hs).
  eexists. split; [exact Hr |]. simpl.
  pose proof (select_script_old unchanged (keys oldText) ops 0 _ Ho ltac:(simpl; lia)) as Hso.
  pose proof (select_script_new unchanged (keys newText) ops 0 _ Hn ltac:(simpl; lia)) as Hsn.
  pose proof (select_script_old modified (keys oldText) ops 0 _ Ho ltac:(simpl; lia)) as Hmo.
  pose proof (select_script_new modified (keys newText) ops 0 _ Hn ltac:(simpl; lia)) as Hmn.
  rewrite drop_0 in Hso, Hsn, Hmo, Hmn.
  split_and!.
  - rewrite Hso, Hsn. by apply picks_unchanged.
  - apply select_length. by rewrite length_omap_old, Ho, length_seq.
  - by rewrite count_unchanged_old.
  - rewrite Hmo, Hmn. by apply picks_modified.
Qed.

(** No status but [unchanged] on either side: the keys are the same. *)
Lemma all_unchanged_keys oldText newText :
  computeLineDiff oldText newText =
    Some (all_unchanged (length (split oldText)) (length (split newText))) ->
  keys oldText = keys newText.
Proof.
  intros H. destruct (unchanged_common oldText newText) as (r & Hr & Hsel & _).
  rewrite H in Hr. injection Hr as <-. simpl in Hsel.
  rewrite <- !keys_length in Hsel. by rewrite !select_all in Hsel.
Qed.

(** When the old keys are a subsequence of the new keys every old line
    is unchanged. *)
Lemma subsequence_old_unchanged oldText newText :
  keys oldText `sublist_of` keys newText ->
  exists r,
    computeLineDiff oldText newText = Some r /\
    oldStatuses r = replicate (length (split oldText)) unchanged /\
    count_status unchanged (newStatuses r) = length (split oldText) /\
    count_status modified (newStatuses r) = 0 /\
    count_status added (newStatuses r) =
      length (split newText) - length (split oldText).
Proof.
  intros Hsub.
  pose proof (lcs_len_max (keys oldText) (keys newText) (keys oldText)
                (reflexivity _) Hsub) as Hmax.
  destruct (script_facts oldText newText) as (ops & Hr & Ho & Hn & Hc & _).
  eexists. split; [exact Hr |]. simpl.
  pose proof (length_old_indices ops) as Hlo.
  pose proof (length_new_indices ops) as Hln.
  rewrite Ho, length_seq in Hlo. rewrite Hn, length_seq in Hln.
  rewrite count_unchanged_new, count_modified_new, count_added_new.
  rewrite <- !keys_length. split_and!; try lia.
  rewrite (count_status_full unchanged (omap old_status ops));
    rewrite length_omap_old, Ho, length_seq; [done |].
  rewrite count_unchanged_old. lia.
Qed.

(** When the new keys are a subsequence of the old keys every new line
    is unchanged. *)
Lemma subsequence_new_unchanged oldText newText :
  keys newText `sublist_of` keys oldText ->
  exists r,
    computeLineDiff oldText newText = Some r /\
    newStatuses r = replicate (length (split newText)) unchanged /\
    count_status unchanged (oldStatuses r) = length (split newText) /\
    count_status modified (oldStatuses r) = 0 /\
    count_status removed (oldStatuses r) =
      length (split oldText) - length (split newText).
Proof.
  intros Hsub.
  pose proof (lcs_len_max (keys oldText) (keys newText) (keys newText)
                Hsub (reflexivity _)) as Hmax.
  destruct (script_facts oldText newText) as (ops & Hr & Ho & Hn & Hc & _).
  eexists. split; [exact Hr |]. simpl.
  pose proof (length_old_indices ops) as Hlo.
  pose proof (length_new_indices ops) as Hln.
  rewrite Ho, length_seq in Hlo. rewrite Hn, length_seq in Hln.
  rewrite count_unchanged_old, count_modified_old, count_removed_old.
  rewrite <- !keys_length. split_and!; try lia.
  rewrite (count_status_full unchanged (omap new_status ops));
    rewrite length_omap_new, Hn, length_seq; [done |].
  rewrite count_unchanged_new. lia.
Qed.

(** ** The walk, push by push *)

Lemma computeLineDiff_keys oldText newText :
  computeLineDiff oldText newText = diff_keys (keys oldText) (keys newText).
Proof. reflexivity. Qed.

Lemma rev_replicate {A} n (x : A) : rev (replicate n x) = replicate n x.
Proof.
  induction n as [|n IH]; [done |].
  rewrite replicate_S_end at 2. simpl. by rewrite IH.
Qed.

Lemma drain_old_explicit i ops :
  drain_old i ops = (0, ops ++ map OpRemove (rev (seq 0 i))).
Proof.
  revert ops. induction i as [|i IH]; intros ops.
  - simpl. by rewrite app_nil_r.
  - simpl drain_old. rewrite Nat.sub_0_r, IH. unfold push.
    rewrite seq_S, rev_app_distr. simpl. by rewrite <- app_assoc.
Qed.

Lemma drain_new_explicit j ops :
  drain_new j ops = (0, ops ++ map OpAdd (rev (seq 0 j))).
Proof.
  revert ops. induction j as [|j IH]; intros ops.
  - simpl. by rewrite app_nil_r.
  - simpl drain_new. rewrite Nat.sub_0_r, IH. unfold push.
    rewrite seq_S, rev_app_distr. simpl. by rewrite <- app_assoc.
Qed.

Lemma reconstruct_pushed dp o nw :
  reconstruct dp o nw = (fun ps => mkWalk 0 0 (rev ps)) <$> pushed dp o nw.
Proof.
  unfold reconstruct, pushed.
  destruct (walk_loop _ dp o nw _) as [s|]; [| done]. simpl.
  rewrite drain_old_explicit, drain_new_explicit. by rewrite <- app_assoc.
Qed.

(** With the table of [build_dp] the projection writes the statuses of the
    script in order. *)
Lemma diff_keys_pushed o nw dp ps :
  lcs_table o nw dp -> build_dp o nw = Some dp -> pushed dp o nw = Some ps ->
  diff_keys o nw =
    Some (mkResult (rev (omap old_status ps)) (rev (omap new_status ps))).
Proof.
  intros Ht Hb Hp. unfold diff_keys. rewrite Hb. simpl.
  destruct (reconstruct_spec o nw dp Ht) as (ops & Hr & Ho & Hn & _).
  rewrite Hr. simpl. rewrite reconstruct_pushed, Hp in Hr. simpl in Hr.
  injection Hr as <-. rewrite (project_spec _ _ _ Ho Hn).
  by rewrite !omap_rev.
Qed.

Lemma omap_old_status_removes l :
  omap old_status (map OpRemove l) = replicate (length l) removed /\
  omap new_status (map OpRemove l) = [].
Proof.
  induction l as [|x l [IH1 IH2]]; [done |].
  simpl map. rewrite !omap_cons_eq, IH1, IH2. done.
Qed.

Lemma omap_new_status_adds l :
  omap new_status (map OpAdd l) = replicate (length l) added /\
  omap old_status (map OpAdd l) = [].
Proof.
  induction l as [|x l [IH1 IH2]]; [done |].
  simpl map. rewrite !omap_cons_eq, IH1, IH2. done.
Qed.

(** The pushes of one pass and of the first loop do not depend on what is
    in [ops] already. *)
Lemma walk_body_acc dp o nw i j ops :
  walk_body dp o nw (mkWalk i j ops) =
    (fun s => mkWalk (w_i s) (w_j s) (ops ++ w_ops s)) <$>
      walk_body dp o nw (mkWalk i j []).
Proof.
  unfold walk_body. simpl.
  destruct (pred_index i) as [i1|]; [| done].
  destruct (pred_index j) as [j1|]; [| done]. simpl.
  destruct (o !! i1) as [a|]; [| done].
  destruct (nw !! j1) as [b|]; [| done]. simpl.
  case_decide; [done |].
  destruct (get2 dp i1 j1) as [d|]; [| done]. simpl.
  destruct (get2 dp i1 j) as [u|]; [| done]. simpl.
  destruct (get2 dp i j1) as [l|]; simpl;
    destruct (u <=? d); simpl; try done;
    try destruct (l <=? d); simpl; try done;
    try destruct (l <=? u); simpl; done.
Qed.

Lemma walk_loop_acc fuel dp o nw i j ops :
  walk_loop fuel dp o nw (mkWalk i j ops) =
    (fun s => mkWalk (w_i s) (w_j s) (ops ++ w_ops s)) <$>
      walk_loop fuel dp o nw (mkWalk i j []).
Proof.
  revert i j ops. induction fuel as [|fuel IH]; intros i j ops; simpl.
  - destruct ((0 <? i) && (0 <? j)); [done |]. simpl. by rewrite app_nil_r.
  - destruct ((0 <? i) && (0 <? j)); [| simpl; by rewrite app_nil_r].
    rewrite walk_body_acc.
    destruct (walk_body dp o nw (mkWalk i j [])) as [[i1 j1 e1]|]; [| done].
    simpl. rewrite (IH i1 j1 (ops ++ e1)), (IH i1 j1 e1).
    destruct (walk_loop fuel dp o nw (mkWalk i1 j1 [])) as [s|]; [| done].
    simpl. by rewrite app_assoc.
Qed.

(** ** Texts without a common key *)

Lemma lcs_len_disjoint o nw i j :
  (forall k, k ∈ o -> k ∉ nw) ->
  i <= length o -> j <= length nw -> lcs_len o nw i j = 0.
Proof.
  intros Hdis. revert j. induction i as [|i IHi]; intros j Hi Hj; [done |].
  induction j as [|j IHj]; [apply lcs_len_0_r |].
  destruct (lookup_lt_is_Some_2 o i) as [a Ha]; [lia |].
  destruct (lookup_lt_is_Some_2 nw j) as [b Hb]; [lia |].
  rewrite lcs_len_S, Ha, Hb, decide_False.
  - rewrite IHi, IHj by lia. done.
  - intros [= ->]. apply (Hdis b).
    + by eapply list_elem_of_lookup_2.
    + by eapply list_elem_of_lookup_2.
Qed.

(** Without a common key the first loop pairs the lines from the end,
    as long as both sides have one left. *)
Lemma walk_loop_disjoint o nw dp fuel i j :
  lcs_table o nw dp -> (forall k, k ∈ o -> k ∉ nw) ->
  i <= length o -> j <= length nw -> i + j <= fuel ->
  exists em,
    walk_loop fuel dp o nw (mkWalk i j []) =
      Some (mkWalk (i - Nat.min i j) (j - Nat.min i j) em) /\
    omap old_status em = replicate (Nat.min i j) modified /\
    omap new_status em = replicate (Nat.min i j) modified.
Proof.
  intros [Hd Hc] Hdis. revert i j.
  induction fuel as [|fuel IH]; intros i j Hi Hj Hf.
  - replace i with 0 by lia. replace j with 0 by lia. by exists [].
  - destruct i as [|i]; [exists []; simpl; by rewrite Nat.sub_0_r |].
    destruct j as [|j]; [by exists [] |].
    destruct (lookup_lt_is_Some_2 o i) as [a Ha]; [lia |].
    destruct (lookup_lt_is_Some_2 nw j) as [b Hb]; [lia |].
    assert (a <> b) as Hab.
    { intros ->. apply (Hdis b); by eapply list_elem_of_lookup_2. }
    destruct (IH i j) as (em & Hw & Ho & Hn); [lia | lia | lia |].
    exists (OpModify i j :: em). split.
    + simpl walk_loop. unfold walk_body. simpl. rewrite Ha, Hb. simpl.
      rewrite decide_False by done.
      rewrite !(Hc i j), !(Hc i (S j)), !(Hc (S i) j) by lia.
      rewrite !lcs_len_disjoint by (done || lia). simpl.
      rewrite walk_loop_acc, Hw. done.
    + rewrite !omap_cons_eq, Ho, Hn. done.
Qed.

Lemma diff_keys_disjoint o nw :
  (forall k, k ∈ o -> k ∉ nw) ->
  diff_keys o nw =
    Some (mkResult
            (replicate (length o - length nw) removed ++
             replicate (Nat.min (length o) (length nw)) modified)
            (replicate (length nw - length o) added ++
             replicate (Nat.min (length o) (length nw)) modified)).
Proof.
  intros Hdis. destruct (build_dp_table o nw) as (dp & Hb & Ht).
  destruct (walk_loop_disjoint o nw dp (length o + length nw) (length o) (length nw)
              Ht Hdis) as (em & Hw & Ho & Hn); [lia | lia | lia |].
  assert (Hp : pushed dp o nw =
    Some (em ++ map OpRemove (rev (seq 0 (length o - Nat.min (length o) (length nw))))
             ++ map OpAdd (rev (seq 0 (length nw - Nat.min (length o) (length nw))))))
    by (unfold pushed; by rewrite Hw).
  rewrite (diff_keys_pushed o nw dp _ Ht Hb Hp).
  destruct (omap_old_status_removes
              (rev (seq 0 (length o - Nat.min (length o) (length nw))))) as [Hr1 Hr2].
  destruct (omap_new_status_adds
              (rev (seq 0 (length nw - Nat.min (length o) (length nw))))) as [Ha1 Ha2].
  rewrite length_rev, length_seq in Hr1, Ha1.
  rewrite !omap_app, Ho, Hn, Hr1, Hr2, Ha1, Ha2, !app_nil_r. simpl.
  rewrite !rev_app_distr, !rev_replicate.
  replace (length o - Nat.min (length o) (length nw))
    with (length o - length nw) by lia.
  replace (length nw - Nat.min (length o) (length nw))
    with (length nw - length o) by lia.
  done.
Qed.

(** ** Lines shared at the end of the two texts *)

Lemma lcs_len_prefix o nw x y i j :
  i <= length o -> j <= length nw ->
  lcs_len (o ++ x) (nw ++ y) i j = lcs_len o nw i j.
Proof.
  revert j. induction i as [|i IHi]; intros j Hi Hj; [done |].
  induction j as [|j IHj]; [by rewrite !lcs_len_0_r |].
  rewrite !lcs_len_S, IHi, IHi, IHj by lia.
  by rewrite !lookup_app_l by lia.
Qed.

Lemma walk_body_prefix o nw x y dp dp' i j ops :
  lcs_table o nw dp -> lcs_table (o ++ x) (nw ++ y) dp' ->
  i <= length o -> j <= length nw ->
  walk_body dp' (o ++ x) (nw ++ y) (mkWalk i j ops) =
    walk_body dp o nw (mkWalk i j ops).
Proof.
  intros [_ Hc] [_ Hc'] Hi Hj. unfold walk_body. simpl.
  destruct i as [|i]; [done |]. destruct j as [|j]; [done |]. simpl.
  rewrite !lookup_app_l by lia.
  rewrite !(Hc i j), !(Hc i (S j)), !(Hc (S i) j) by lia.
  rewrite !(Hc' i j), !(Hc' i (S j)), !(Hc' (S i) j)
    by (rewrite length_app; lia).
  by rewrite !lcs_len_prefix by lia.
Qed.

Lemma walk_loop_prefix o nw x y dp dp' fuel i j ops :
  lcs_table o nw dp -> lcs_table (o ++ x) (nw ++ y) dp' ->
  i <= length o -> j <= length nw ->
  walk_loop fuel dp' (o ++ x) (nw ++ y) (mkWalk i j ops) =
    walk_loop fuel dp o nw (mkWalk i j ops).
Proof.
  intros Ht Ht'. revert i j ops.
  induction fuel as [|fuel IH]; intros i j ops Hi Hj; [done |].
  simpl. destruct (Nat.ltb_spec 0 i) as [Hi0 | Hi0]; [| done].
  destruct (Nat.ltb_spec 0 j) as [Hj0 | Hj0]; [| done]. simpl.
  rewrite (walk_body_prefix o nw x y dp dp') by done.
  destruct (walk_body_step o nw dp Ht i j ops) as (i1 & j1 & op & Hb & _ & Hs);
    [lia | lia |].
  rewrite Hb. simpl. destruct Hs as (Hi1 & Hj1 & _). apply IH; lia.
Qed.

(** Lines with the same keys at the end of both texts are walked first,
    one [equal] each. *)
Lemma walk_loop_shared o nw sfx dp' l :
  l <= length sfx ->
  exists eqs,
    omap old_status eqs = replicate l unchanged /\
    omap new_status eqs = replicate l unchanged /\
    forall fuel ops,
      walk_loop (l + fuel) dp' (o ++ sfx) (nw ++ sfx)
        (mkWalk (length o + l) (length nw + l) ops) =
      walk_loop fuel dp' (o ++ sfx) (nw ++ sfx)
        (mkWalk (length o) (length nw) (ops ++ eqs)).
Proof.
  induction l as [|l IH]; intros Hl.
  - exists []. split; [done |]. split; [done |]. intros fuel ops.
    by rewrite !Nat.add_0_r, app_nil_r.
  - destruct IH as (eqs & Ho & Hn & Hw); [lia |].
    destruct (lookup_lt_is_Some_2 sfx l) as [k Hk]; [lia |].
    exists (OpEqual (length o + l) (length nw + l) :: eqs).
    rewrite !omap_cons_eq, Ho, Hn. split; [done |]. split; [done |].
    intros fuel ops. simpl walk_loop.
    replace (0 <? length o + S l) with true by (symmetry; apply Nat.ltb_lt; lia).
    replace (0 <? length nw + S l) with true by (symmetry; apply Nat.ltb_lt; lia).
    simpl. unfold walk_body. simpl. rewrite !Nat.add_succ_r. simpl.
    rewrite !lookup_app_r by lia.
    replace (length o + l - length o) with l by lia.
    replace (length nw + l - length nw) with l by lia.
    rewrite Hk. simpl. rewrite decide_True by done.
    simpl. rewrite Hw. unfold push. by rewrite <- app_assoc.
Qed.

Lemma diff_keys_shared_end o nw sfx :
  exists r,
    diff_keys o nw = Some r /\
    diff_keys (o ++ sfx) (nw ++ sfx) =
      Some (mkResult (oldStatuses r ++ replicate (length sfx) unchanged)
                     (newStatuses r ++ replicate (length sfx) unchanged)).
Proof.
  destruct (build_dp_table o nw) as (dp & Hb & Ht).
  destruct (build_dp_table (o ++ sfx) (nw ++ sfx)) as (dp' & Hb' & Ht').
  destruct (walk_loop_total o nw dp Ht (length o + length nw)
              (length o) (length nw) []) as (i1 & j1 & em & Hw & _);
    [lia | lia | lia |].
  simpl in Hw.
  destruct (walk_loop_shared o nw sfx dp' (length sfx)) as (eqs & Ho & Hn & Hsh);
    [lia |].
  assert (Hp : pushed dp o nw =
    Some (em ++ map OpRemove (rev (seq 0 i1)) ++ map OpAdd (rev (seq 0 j1))))
    by (unfold pushed; by rewrite Hw).
  eexists. split.
  - apply (diff_keys_pushed o nw dp _ Ht Hb Hp).
  - rewrite (diff_keys_pushed _ _ dp'
               (eqs ++ em ++ map OpRemove (rev (seq 0 i1))
                    ++ map OpAdd (rev (seq 0 j1))) Ht' Hb').
    + simpl. rewrite !(omap_app _ eqs), Ho, Hn, !rev_app_distr, !rev_replicate. done.
    + unfold pushed. rewrite !length_app.
      replace (length o + length sfx + (length nw + length sfx))
        with (length sfx + (length o + length nw + length sfx)) by lia.
      rewrite Hsh. simpl.
      rewrite (walk_loop_prefix o nw sfx sfx dp dp') by (done || lia).
      rewrite walk_loop_acc.
      rewrite (walk_loop_fuel_mono _ (length sfx) _ _ _ _ _ Hw). simpl.
      by rewrite <- !app_assoc.
Qed.

(** ** Keys and line counts *)

Lemma rstrip_fixed s :
  (forall c, last s = Some c -> is_ws c = false) -> rstrip s = s.
Proof.
  induction s as [|c s IH]; intros Hl; [done |].
  rewrite rstrip_cons. destruct s as [|c' s].
  - simpl. rewrite (Hl c) by done. done.
  - rewrite IH by (intros x Hx; apply Hl; by rewrite last_cons, Hx).
    rewrite bool_decide_eq_false_2 by done. by rewrite andb_false_r.
Qed.

Lemma split_count_LF s :
  length (split s) = S (length (filter (fun c => c = LF) s)).
Proof.
  induction s as [|c s IH]; [done |].
  rewrite split_cons, filter_cons. case_decide; simpl; [by rewrite IH |].
  rewrite <- IH. rewrite (split_hd_tl s) at 2. done.
Qed.

Lemma split_no_LF s : Forall (fun line => LF ∉ line) (split s).
Proof.
  induction s as [|c s IH].
  - constructor; [apply not_elem_of_nil | constructor].
  - rewrite split_cons. rewrite (split_hd_tl s) in IH.
    apply Forall_cons in IH as [Hh Ht]. case_decide.
    + constructor; [apply not_elem_of_nil |]. rewrite split_hd_tl. by constructor.
    + constructor; [| done]. apply not_elem_of_cons. by split.
Qed.

(** ** The highlighted lines *)

Lemma imap_highlight_line highlight sts lines :
  length sts = length lines ->
  imap (highlight_line highlight sts) lines =
    zip_with (fun st line => highlight_line highlight [st] 0 line) sts lines.
Proof.
  revert lines. induction sts as [|st sts IH]; intros [|line lines] Hl;
    simpl in Hl; try done.
  simpl. f_equal. rewrite <- IH by lia. by apply imap_ext.
Qed.

(** ** Blank input *)

Lemma lstrip_ws s : Forall (fun c => is_ws c = true) s -> lstrip s = [].
Proof. induction 1 as [|c s Hc _ IH]; [done |]. simpl. by rewrite Hc. Qed.

Lemma trim_ws s : Forall (fun c => is_ws c = true) s -> trim s = [].
Proof. intros H. unfold trim. by rewrite lstrip_ws. Qed.

(** ** Digits *)

Lemma digits_only_app a b : digits_only (a ++ b) = digits_only a ++ digits_only b.
Proof. apply filter_app. Qed.

Lemma digits_only_skip c ts :
  is_digit c = false -> digits_only (c :: ts) = digits_only ts.
Proof.
  intros Hc. unfold digits_only. rewrite filter_cons, decide_False; [done |].
  congruence.
Qed.


Lemma detect_by_count ts :
  detectTimestampUnit ts =
    if decide (length (digits_only ts) = 10) then seconds
    else if decide (length (digits_only ts) = 13) then milliseconds
    else unknown.
Proof.
  unfold detectTimestampUnit. simpl.
  destruct (digits_only ts) as [|c l]; [done |].
  rewrite decide_False by done. done.
Qed.

(** ** The history of [JsonTool] *)

Section HistoryFacts.
Context {J : Type}.
Variable parse : jsstring -> J + jsstring.
Variable stringify : J -> option nat -> jsstring.
Variable blob_size : jsstring -> N.

(** The three ways [history_update] can end. *)
Lemma history_update_cases clock content h :
  (history_update parse stringify blob_size clock content h = h /\
     exists last rest, h = last :: rest /\ item_content last = content) \/
  (exists last rest, h = last :: rest /\
     history_update parse stringify blob_size clock content h =
       mkItem (item_id last) content (now clock) (blob_size content) :: rest) \/
  history_update parse stringify blob_size clock content h =
    push_entry blob_size clock content h.
Proof.
  unfold history_update. destruct h as [|last rest]; [by right; right |].
  destruct (parse content), (parse (item_content last));
    repeat case_decide; eauto 10.
Qed.

Lemma history_update_same clock content last rest :
  item_content last = content ->
  history_update parse stringify blob_size clock content (last :: rest) =
    last :: rest.
Proof.
  intros H. unfold history_update. rewrite H.
  destruct (parse content); by rewrite ?decide_True by done.
Qed.

Lemma history_update_head clock content h :
  exists it rest,
    history_update parse stringify blob_size clock content h = it :: rest /\
    item_content it = content.
Proof.
  destruct (history_update_cases clock content h)
    as [[-> (last & rest & -> & Hc)] | [(last & rest & -> & ->) | ->]]; eauto.
Qed.

(** X15. [addToHistory] never grows the history beyond 50 entries: the
    result is no longer than the larger of 50 and the old length. *)
Theorem history_bounded clock content h :
  length (addToHistory parse stringify blob_size clock content h) <=
    Nat.max 50 (length h).
Proof.
  unfold addToHistory. destruct (skipped content); [lia |].
  destruct (history_update_cases clock content h)
    as [[-> _] | [(last & rest & -> & ->) | ->]]; simpl; try lia.
  unfold push_entry. rewrite length_take. lia.
Qed.

(** X16. Recording the same content twice in a row changes nothing the
    second time, whatever the clock and the random id of the second call. *)
Theorem history_idempotent clock1 clock2 content h :
  addToHistory parse stringify blob_size clock2 content
    (addToHistory parse stringify blob_size clock1 content h) =
  addToHistory parse stringify blob_size clock1 content h.
Proof.
  unfold addToHistory. destruct (skipped content); [done |].
  destruct (history_update_head clock1 content h) as (it & rest & -> & Hc).
  by apply history_update_same.
Qed.

(** X17. Content that is not skipped (not empty, not blank, not "{}" or
    "[]" after trimming) is the content of the first entry afterwards. *)
Theorem history_head clock content h :
  skipped content = false ->
  exists it rest,
    addToHistory parse stringify blob_size clock content h = it :: rest /\
    item_content it = content.
Proof.
  intros Hs. unfold addToHistory. rewrite Hs. apply history_update_head.
Qed.

(** X18. [addToHistory] touches the first entry only: the entries after
    the first one of the result are entries of the old history, in their
    old order. *)
Theorem history_keeps_older clock content h :
  tail (addToHistory parse stringify blob_size clock content h) `sublist_of` h.
Proof.
  unfold addToHistory. destruct (skipped content).
  - destruct h; [done |]. by apply sublist_cons.
  - destruct (history_update_cases clock content h)
      as [[-> _] | [(last & rest & -> & ->) | ->]].
    + destruct h; [done |]. by apply sublist_cons.
    + simpl. by apply sublist_cons.
    + unfold push_entry. simpl. apply sublist_take.
Qed.

(** X19. If the ids of the history are pairwise different and the id
    drawn for the call is not among them, the ids are pairwise different
    afterwards. *)
Theorem history_unique_ids clock content h :
  NoDup (item_id <$> h) -> fresh_id clock ∉ (item_id <$> h) ->
  NoDup (item_id <$> addToHistory parse stringify blob_size clock content h).
Proof.
  intros Hnd Hfresh. unfold addToHistory. destruct (skipped content); [done |].
  destruct (history_update_cases clock content h)
    as [[-> _] | [(last & rest & -> & ->) | ->]]; try done.
  unfold push_entry. simpl.
  apply (sublist_NoDup _ (fresh_id clock :: (item_id <$> h))).
  - by apply NoDup_cons.
  - apply sublist_skip. rewrite fmap_take. apply sublist_take.
Qed.

End HistoryFacts.

Lemma history_head_witness :
  exists it rest,
    addToHistory (J := jsstring) inl (fun v _ => v) (fun s => N.of_nat (length s))
      (mkClock (js "id1") 1700000000000) (js "[1]") [] = it :: rest /\
    item_content it = js "[1]".
Proof.
  apply (history_head (J := jsstring) inl (fun v _ => v)
           (fun s => N.of_nat (length s))
           (mkClock (js "id1") 1700000000000) (js "[1]") []).
  reflexivity.
Defined.

Lemma history_unique_ids_witness :
  NoDup (item_id <$>
    addToHistory (J := jsstring) inl (fun v _ => v) (fun s => N.of_nat (length s))
      (mkClock (js "id2") 1700000000001) (js "[2]")
      [mkItem (js "id1") (js "[1]") 1700000000000 3]).
Proof.
  apply (history_unique_ids (J := jsstring) inl (fun v _ => v)
           (fun s => N.of_nat (length s))).
  - compute_done.
  - compute_done.
Defined.

(** X20. [deleteHistoryItem] leaves no entry with the id, keeps the other
    entries in order, is the identity when the id is absent, and removes
    exactly one entry when the ids are pairwise different and the id is
    present. *)
Theorem delete_removes_id id h :
  (id ∉ (item_id <$> deleteHistoryItem id h)) /\
  (deleteHistoryItem id h `sublist_of` h) /\
  (id ∉ (item_id <$> h) -> deleteHistoryItem id h = h) /\
  (NoDup (item_id <$> h) -> id ∈ (item_id <$> h) ->
   S (length (deleteHistoryItem id h)) = length h).
Proof.
  unfold deleteHistoryItem. split_and!.
  - intros H. apply list_elem_of_fmap in H as (it & -> & Hit).
    apply list_elem_of_filter in Hit as [Hne _]. done.
  - apply sublist_filter.
  - induction h as [|it h IH]; [done |]. simpl. intros Hn.
    apply not_elem_of_cons in Hn as [Hne Hn].
    rewrite filter_cons, decide_True by done. by rewrite IH.
  - induction h as [|it h IH]; simpl; intros Hnd Hin.
    + by apply elem_of_nil in Hin.
    + apply NoDup_cons in Hnd as [Hni Hnd]. rewrite filter_cons.
      apply elem_of_cons in Hin as [-> | Hin].
      * rewrite decide_False by (intros Hx; by apply Hx).
        f_equal. clear IH Hnd. induction h as [|x h IH]; [done |].
        simpl in Hni. apply not_elem_of_cons in Hni as [Hne Hni].
        rewrite filter_cons, decide_True by done. simpl. by rewrite IH.
      * rewrite decide_True.
        -- simpl. by rewrite IH.
        -- intros Heq. rewrite Heq in Hni. done.
Qed.

Lemma delete_removes_id_witness :
  S (length (deleteHistoryItem (js "id1")
               [mkItem (js "id2") (js "[2]") 2 3; mkItem (js "id1") (js "[1]") 1 3])) = 2.
Proof.
  apply (proj2 (proj2 (proj2 (delete_removes_id (js "id1")
           [mkItem (js "id2") (js "[2]") 2 3; mkItem (js "id1") (js "[1]") 1 3])))).
  - compute_done.
  - compute_done.
Defined.

(** * Further properties, as theorems *)

(** X1. The lines marked unchanged on the old side and the lines marked
    unchanged on the new side have the same keys in the same order: they
    are one common subsequence of the two key sequences. *)
Theorem unchanged_lines_match (oldText newText : jsstring) :
  exists r,
    computeLineDiff oldText newText = Some r /\
    select unchanged (keys oldText) (oldStatuses r) =
      select unchanged (keys newText) (newStatuses r) /\
    (select unchanged (keys oldText) (oldStatuses r) `sublist_of` keys oldText) /\
    (select unchanged (keys newText) (newStatuses r) `sublist_of` keys newText) /\
    length (select unchanged (keys oldText) (oldStatuses r)) =
      count_status unchanged (oldStatuses r).
Proof.
  destruct (unchanged_common oldText newText) as (r & Hr & Hsel & Hlen & _).
  exists r. split_and!; try done; apply select_sublist.
Qed.

(** X2. No common subsequence of the two key sequences is longer than the
    number of lines marked unchanged: the tie-break towards [modify] never
    costs an unchanged line. *)
Theorem unchanged_lines_longest (oldText newText : jsstring) :
  exists r,
    computeLineDiff oldText newText = Some r /\
    forall s : list jsstring,
      s `sublist_of` keys oldText -> s `sublist_of` keys newText ->
      length s <= count_status unchanged (oldStatuses r).
Proof.
  destruct (unchanged_common oldText newText) as (r & Hr & _ & _ & Hc & _).
  exists r. split; [done |]. intros s Ho Hn. rewrite Hc. by apply lcs_len_max.
Qed.

Lemma unchanged_lines_longest_witness :
  exists r,
    computeLineDiff (js "a" ++ nl ++ js "b" ++ nl ++ js "c")
                    (js "b" ++ nl ++ js "c" ++ nl ++ js "a") = Some r /\
    2 <= count_status unchanged (oldStatuses r).
Proof.
  destruct (unchanged_lines_longest (js "a" ++ nl ++ js "b" ++ nl ++ js "c")
              (js "b" ++ nl ++ js "c" ++ nl ++ js "a")) as (r & Hr & Hmax).
  exists r. split; [exact Hr |].
  apply (Hmax [js "b"; js "c"]).
  - vm_compute. apply sublist_cons. reflexivity.
  - vm_compute. do 2 apply sublist_skip. apply sublist_nil_l.
Defined.

(** X3. The lines marked modified pair up across the two sides, in order,
    and the two lines of a pair never have the same key. *)
Theorem modified_lines_differ (oldText newText : jsstring) :
  exists r,
    computeLineDiff oldText newText = Some r /\
    Forall2 (fun a b => a <> b)
      (select modified (keys oldText) (oldStatuses r))
      (select modified (keys newText) (newStatuses r)) /\
    count_status modified (oldStatuses r) = count_status modified (newStatuses r).
Proof.
  destruct (unchanged_common oldText newText) as (r & Hr & _ & _ & _ & Hm).
  destruct (status_counts oldText newText) as (r' & Hr' & _ & _ & Hc & _).
  rewrite Hr in Hr'. injection Hr' as <-. by exists r.
Qed.

(** X4. No old line is ever marked added and no new line is ever marked
    removed. *)
Theorem sides_exclusive (oldText newText : jsstring) :
  exists r,
    computeLineDiff oldText newText = Some r /\
    (added ∉ oldStatuses r) /\ (removed ∉ newStatuses r).
Proof.
  destruct (status_counts oldText newText) as (r & Hr & Ha & Hrm & _).
  exists r. split; [done |]. split; by apply count_status_0.
Qed.

(** X5. On each side the three statuses that can occur add up to the
    number of lines, and the added lines outnumber the removed lines by
    exactly the difference of the two line counts. *)
Theorem status_counts_balance (oldText newText : jsstring) :
  exists r,
    computeLineDiff oldText newText = Some r /\
    count_status unchanged (oldStatuses r) + count_status removed (oldStatuses r) +
      count_status modified (oldStatuses r) = length (split oldText) /\
    count_status unchanged (newStatuses r) + count_status added (newStatuses r) +
      count_status modified (newStatuses r) = length (split newText) /\
    count_status added (newStatuses r) + length (split oldText) =
      count_status removed (oldStatuses r) + length (split newText).
Proof.
  destruct (status_counts oldText newText)
    as (r & Hr & _ & _ & Hm & Hu & Ho & Hn & _).
  exists r. split_and!; try done. lia.
Qed.

(** X6. The result is unchanged everywhere exactly when the two texts have
    the same keys line by line: a difference other than white space at the
    end of a line is always reported. *)
Theorem all_unchanged_iff_same_keys (oldText newText : jsstring) :
  computeLineDiff oldText newText =
    Some (all_unchanged (length (split oldText)) (length (split newText))) <->
  keys oldText = keys newText.
Proof. split; [apply all_unchanged_keys | apply same_keys_unchanged]. Qed.

Lemma all_unchanged_iff_same_keys_witness :
  keys (js "{" ++ nl ++ js "}  ") = keys (js "{ " ++ nl ++ js "}").
Proof.
  apply (proj1 (all_unchanged_iff_same_keys (js "{" ++ nl ++ js "}  ")
                  (js "{ " ++ nl ++ js "}"))).
  vm_compute. reflexivity.
Defined.

(** X7. When the old keys are a subsequence of the new keys (lines were
    only inserted), every old line is unchanged, no new line is modified
    and exactly the surplus of new lines is added. *)
Theorem pure_insertion_statuses (oldText newText : jsstring) :
  keys oldText `sublist_of` keys newText ->
  exists r,
    computeLineDiff oldText newText = Some r /\
    oldStatuses r = replicate (length (split oldText)) unchanged /\
    count_status unchanged (newStatuses r) = length (split oldText) /\
    count_status modified (newStatuses r) = 0 /\
    count_status added (newStatuses r) =
      length (split newText) - length (split oldText).
Proof. apply subsequence_old_unchanged. Qed.

Lemma pure_insertion_statuses_witness :
  exists r,
    computeLineDiff (js "a" ++ nl ++ js "b")
                    (js "a" ++ nl ++ js "x" ++ nl ++ js "b") = Some r /\
    oldStatuses r = [unchanged; unchanged] /\
    count_status added (newStatuses r) = 1.
Proof.
  destruct (pure_insertion_statuses (js "a" ++ nl ++ js "b")
              (js "a" ++ nl ++ js "x" ++ nl ++ js "b")) as (r & Hr & Ho & _ & _ & Ha).
  - vm_compute. apply sublist_skip, sublist_cons. reflexivity.
  - exists r. split; [exact Hr |]. split; [exact Ho | exact Ha].
Defined.

(** X8. When the new keys are a subsequence of the old keys (lines were
    only deleted), every new line is unchanged, no old line is modified
    and exactly the surplus of old lines is removed. *)
Theorem pure_deletion_statuses (oldText newText : jsstring) :
  keys newText `sublist_of` keys oldText ->
  exists r,
    computeLineDiff oldText newText = Some r /\
    newStatuses r = replicate (length (split newText)) unchanged /\
    count_status unchanged (oldStatuses r) = length (split newText) /\
    count_status modified (oldStatuses r) = 0 /\
    count_status removed (oldStatuses r) =
      length (split oldText) - length (split newText).
Proof. apply subsequence_new_unchanged. Qed.

Lemma pure_deletion_statuses_witness :
  exists r,
    computeLineDiff (js "a" ++ nl ++ js "b" ++ nl ++ js "c")
                    (js "a" ++ nl ++ js "c") = Some r /\
    newStatuses r = [unchanged; unchanged] /\
    count_status removed (oldStatuses r) = 1.
Proof.
  destruct (pure_deletion_statuses (js "a" ++ nl ++ js "b" ++ nl ++ js "c")
              (js "a" ++ nl ++ js "c")) as (r & Hr & Hn & _ & _ & Hd).
  - vm_compute. apply sublist_skip, sublist_cons. reflexivity.
  - exists r. split; [exact Hr |]. split; [exact Hn | exact Hd].
Defined.

(** X9. When no key of the old text is a key of the new text, the lines
    are paired as modified from the end of both texts, and the lines the
    longer text has left at its beginning are removed (old) or added (new). *)
Theorem disjoint_texts_statuses (oldText newText : jsstring) :
  Forall (fun k => k ∉ keys newText) (keys oldText) ->
  computeLineDiff oldText newText =
    Some (mkResult
            (replicate (length (split oldText) - length (split newText)) removed ++
             replicate (Nat.min (length (split oldText)) (length (split newText)))
               modified)
            (replicate (length (split newText) - length (split oldText)) added ++
             replicate (Nat.min (length (split oldText)) (length (split newText)))
               modified)).
Proof.
  intros H. rewrite computeLineDiff_keys, <- !keys_length.
  apply diff_keys_disjoint. by apply Forall_forall.
Qed.

Lemma disjoint_texts_statuses_witness :
  computeLineDiff (js "x" ++ nl ++ js "y" ++ nl ++ js "z") (js "p") =
    Some (mkResult [removed; removed; modified] [modified]).
Proof.
  apply (disjoint_texts_statuses (js "x" ++ nl ++ js "y" ++ nl ++ js "z") (js "p")).
  compute_done.
Defined.

(** X10. Lines shared at the end of both texts are unchanged and do not
    disturb the rest: appending a line feed and the same text to both
    inputs appends unchanged statuses and leaves the other statuses as
    they were. *)
Theorem shared_trailing_lines (oldText newText shared : jsstring) :
  exists r,
    computeLineDiff oldText newText = Some r /\
    computeLineDiff (oldText ++ LF :: shared) (newText ++ LF :: shared) =
      Some (mkResult
              (oldStatuses r ++ replicate (length (split shared)) unchanged)
              (newStatuses r ++ replicate (length (split shared)) unchanged)).
Proof.
  rewrite !computeLineDiff_keys. unfold keys. rewrite !split_app_LF, !map_app.
  rewrite <- (length_map rstrip (split shared)).
  apply diff_keys_shared_end.
Qed.

(** X11. In the summary line the [Math.max] of the two modified counts is
    the count of either side, the added and removed numbers differ by the
    difference of the line counts, and all three numbers are 0 exactly
    when the two texts have the same keys. *)
Theorem summary_counts (oldText newText : jsstring) :
  exists r,
    computeLineDiff oldText newText = Some r /\
    sum_modified (diffSummary r) = count_status modified (oldStatuses r) /\
    sum_modified (diffSummary r) = count_status modified (newStatuses r) /\
    sum_added (diffSummary r) + length (split oldText) =
      sum_removed (diffSummary r) + length (split newText) /\
    (diffSummary r = mkSummary 0 0 0 <-> keys oldText = keys newText).
Proof.
  destruct (status_counts oldText newText)
    as (r & Hr & _ & _ & Hm & Hu & Ho & Hn & Hlo & Hln).
  exists r. unfold diffSummary. simpl. fold (count_status modified (oldStatuses r))
    (count_status modified (newStatuses r)) (count_status added (newStatuses r))
    (count_status removed (oldStatuses r)).
  split_and!; try done; try lia.
  split.
  - intros [= Ha Hd Hx]. apply all_unchanged_keys. rewrite Hr. f_equal.
    destruct r as [olds news]. simpl in *. unfold all_unchanged. f_equal.
    + rewrite <- Hlo. apply count_status_full. lia.
    + rewrite <- Hln. apply count_status_full. lia.
  - intros Hk. pose proof (same_keys_unchanged _ _ Hk) as Hs.
    rewrite Hr in Hs. injection Hs as ->. simpl. unfold count_status.
    assert (forall v n, v <> unchanged ->
              length (filter (fun status => status = v) (replicate n unchanged)) = 0)
      as H0.
    { intros v n Hv. induction n as [|n IH]; [done |]. simpl.
      by rewrite filter_cons, decide_False. }
    by rewrite !H0.
Qed.

Lemma summary_counts_witness :
  keys (js "[1]") = keys (js "[1] ").
Proof.
  destruct (summary_counts (js "[1]") (js "[1] ")) as (r & Hr & _ & _ & _ & Hiff).
  apply (proj1 Hiff).
  vm_compute in Hr. injection Hr as <-. reflexivity.
Defined.

(** X12. When an editor highlights its own text, every line is drawn with
    the status computed for it: the status arrays are as long as the lines
    of the texts, so the ['unchanged'] fallback of [highlightWithDiff] is
    never taken. *)
Theorem highlight_uses_statuses (highlight : jsstring -> jsstring)
    (oldText newText : jsstring) :
  exists r,
    computeLineDiff oldText newText = Some r /\
    length (oldStatuses r) = length (split oldText) /\
    length (newStatuses r) = length (split newText) /\
    highlightWithDiff highlight r oldText SideOld =
      concat (zip_with (fun st line => highlight_line highlight [st] 0 line)
                (oldStatuses r) (split oldText)) /\
    highlightWithDiff highlight r newText SideNew =
      concat (zip_with (fun st line => highlight_line highlight [st] 0 line)
                (newStatuses r) (split newText)).
Proof.
  destruct (status_counts oldText newText)
    as (r & Hr & _ & _ & _ & _ & _ & _ & Hlo & Hln).
  exists r. unfold highlightWithDiff. split_and!; try done.
  - by rewrite imap_highlight_line.
  - by rewrite imap_highlight_line.
Qed.

(** X13. The comparison key of a line is the line without its longest run
    of final white space: the key is a prefix of the line, what is cut is
    white space only, the key does not end in white space, and taking the
    key of a key changes nothing. *)
Theorem key_shape (line : jsstring) :
  exists w,
    line = rstrip line ++ w /\
    Forall (fun c => is_ws c = true) w /\
    (forall c, last (rstrip line) = Some c -> is_ws c = false) /\
    rstrip (rstrip line) = rstrip line.
Proof.
  destruct (rstrip_spec line) as (w & Hs & Hw & Hl).
  exists w. split_and!; try done. by apply rstrip_fixed.
Qed.

Lemma key_shape_witness :
  is_ws 98%N = false.
Proof.
  destruct (key_shape (js "a b" ++ [32; 9]%N)) as (w & _ & _ & Hl & _).
  apply Hl. reflexivity.
Defined.

(** X14. Each status array has one entry more than its text has line
    feeds. *)
Theorem status_length_counts_LF (oldText newText : jsstring) :
  exists r,
    computeLineDiff oldText newText = Some r /\
    length (oldStatuses r) = S (length (filter (fun c => c = LF) oldText)) /\
    length (newStatuses r) = S (length (filter (fun c => c = LF) newText)).
Proof.
  destruct (status_counts oldText newText)
    as (r & Hr & _ & _ & _ & _ & _ & _ & Hlo & Hln).
  exists r. by rewrite Hlo, Hln, !split_count_LF.
Qed.

(** ** [jsonUtils.ts] *)

Section JsonFacts.
Context {J : Type}.
Variable parse : jsstring -> J + jsstring.
Variable stringify : J -> option nat -> jsstring.

(** X21. Input that is empty or white space only is rejected by
    [formatJson], [minifyJson] and [validateJson] with the message
    ['输入内容为空'], whatever [JSON.parse] would make of it. *)
Theorem json_blank_input (input : jsstring) :
  Forall (fun c => is_ws c = true) input ->
  formatJson parse stringify input =
    mkJsonResult false [] (Some empty_input_error) /\
  minifyJson parse stringify input =
    mkJsonResult false [] (Some empty_input_error) /\
  validateJson parse input = mkValidate false (Some empty_input_error).
Proof.
  intros H. apply trim_ws in H.
  unfold formatJson, minifyJson, validateJson. by rewrite !decide_True.
Qed.


End JsonFacts.

Lemma json_blank_input_witness :
  validateJson (J := jsstring) inl (js "  " ++ nl) =
    mkValidate false (Some empty_input_error).
Proof.
  apply (json_blank_input (J := jsstring) inl (fun v _ => v) (js "  " ++ nl)).
  compute_done.
Defined.


(** ** [timeUtils.ts] and [useTheme] *)

(** X23. [detectTimestampUnit] looks at the number of decimal digits of
    its argument and at nothing else: 10 digits are seconds, 13 are
    milliseconds, any other number is unknown, and a character that is not
    a digit changes nothing wherever it stands. *)
Theorem detect_counts_digits :
  (forall ts,
     detectTimestampUnit ts =
       if decide (length (digits_only ts) = 10) then seconds
       else if decide (length (digits_only ts) = 13) then milliseconds
       else unknown) /\
  (forall a b c, is_digit c = false ->
     detectTimestampUnit (a ++ c :: b) = detectTimestampUnit (a ++ b)).
Proof.
  split; [apply detect_by_count |].
  intros a b c Hc. rewrite !detect_by_count, !digits_only_app.
  by rewrite (digits_only_skip c b Hc).
Qed.

Lemma detect_counts_digits_witness :
  detectTimestampUnit (js "1700000" ++ 32%N :: js "000") =
    detectTimestampUnit (js "1700000" ++ js "000").
Proof.
  apply (proj2 detect_counts_digits (js "1700000") (js "000") 32%N).
  reflexivity.
Defined.


(** X25. [toggleTheme] goes round the three themes: three toggles come
    back to the theme one started from, and one or two toggles never do. *)
Theorem toggle_cycle (theme : Theme) :
  toggleTheme (toggleTheme (toggleTheme theme)) = theme /\
  toggleTheme theme <> theme /\
  toggleTheme (toggleTheme theme) <> theme.
Proof. by destruct theme. Qed.
